(** * n-port parameter matrices across frequency sweeps: model and properties

    Shallow embedding of [nport/nport.py].

    - numpy [complex] entries are elements of a closed numeric field [C]
      (exact arithmetic); an n-by-n array is a matrix ['M[C]_n].
    - A Python call that raises is a [Raise e]; one that returns is [Ok v].
      numpy does not raise on a division by zero of an array, it stores
      inf/nan entries and goes on: the model has no such entries and stops
      there with [FloatingPointError], the exception numpy itself raises under
      [seterr(all='raise')].
    - Sample frequencies are rational numbers (every finite float is one).
    - Port numbers are integers ([int]); list indexing follows Python, a
      negative index counting from the end. *)

From Stdlib Require Import String.
From HB Require Import structures.
From mathcomp Require Import boot order algebra.
From mathcomp Require Import algC.

Set Implicit Arguments.
Unset Strict Implicit.
Unset Printing Implicit Defensive.

Import Order.Theory GRing.Theory Num.Theory.
Local Open Scope ring_scope.

(** ** Python exceptions and results *)

Inductive exn : Type :=
  | ValueError of string
  | TypeError of string
  | IndexError of string
  | AssertionError
  | AttributeError of string
  | UnboundLocalError of string
  | ZeroDivisionError
  | FloatingPointError
  | LinAlgError
  | NameError of string
  | NotImplementedError.

Inductive result (A : Type) : Type :=
  | Ok of A
  | Raise of exn.

Arguments Ok {A} _.
Arguments Raise {A} _.

Definition bind {A B : Type} (r : result A) (k : A -> result B) : result B :=
  match r with
  | Ok a => k a
  | Raise e => Raise e
  end.

Notation "x <- r ;; k" := (bind r (fun x => k))
  (at level 100, r at next level, right associativity).

Definition assert (b : bool) : result unit :=
  if b then Ok tt else Raise AssertionError.

Fixpoint mapM {A B : Type} (f : A -> result B) (s : seq A) : result (seq B) :=
  match s with
  | [::] => Ok [::]
  | a :: s' => b <- f a ;; bs <- mapM f s' ;; Ok (b :: bs)
  end.

Definition is_ok {A : Type} (r : result A) : bool :=
  if r is Ok _ then true else false.

(** ** Parameter matrix types *)

Inductive ptype : Type :=
  TYPE_Z | TYPE_Y | TYPE_S | TYPE_T | TYPE_H | TYPE_G | TYPE_ABCD.

Definition ptype_code (t : ptype) : nat :=
  match t with
  | TYPE_Z => 0 | TYPE_Y => 1 | TYPE_S => 2 | TYPE_T => 3
  | TYPE_H => 4 | TYPE_G => 5 | TYPE_ABCD => 6
  end.

Definition ptype_decode (k : nat) : ptype :=
  match k with
  | 0 => TYPE_Z | 1 => TYPE_Y | 2 => TYPE_S | 3 => TYPE_T
  | 4 => TYPE_H | 5 => TYPE_G | _ => TYPE_ABCD
  end.

Lemma ptype_codeK : cancel ptype_code ptype_decode.
Proof. by case. Qed.

HB.instance Definition _ := Equality.copy ptype (can_type ptype_codeK).

Section Matrices.

Variable C : numClosedFieldType.

(** ** Numeric primitives *)

Section Primitives.

Variable n : nat.
Implicit Types A B : 'M[C]_n.

(** [np.identity(len(self), dtype=complex)] *)
Definition idty : 'M[C]_n := 1%:M.

(** [np.linalg.inv]: LinAlgError on a singular matrix. *)
Definition invert A : result 'M[C]_n :=
  if A \in unitmx then Ok (invmx A) else Raise LinAlgError.

(** [array / z] for a scalar [z]. *)
Definition array_div A (z : C) : result 'M[C]_n :=
  if z == 0 then Raise FloatingPointError else Ok (z^-1 *: A).

(** [x / y] on Python numbers. *)
Definition py_div (x y : C) : result C :=
  if y == 0 then Raise ZeroDivisionError else Ok (x / y).

End Primitives.

(** ** NPortMatrixBase, NPortMatrix *)

Record NPortMatrix (n : nat) : Type := mkNPortMatrix {
  pm_array : 'M[C]_n;
  pm_type : ptype;
  pm_z0 : option C
}.

Definition z0_msg : string :=
  "the specified n-port representation does not require a reference impedance".

(** [NPortMatrixBase._z0test] *)
Definition z0test (t : ptype) (z0 : option C) : result (option C) :=
  if t \in [:: TYPE_S; TYPE_T] then
    if z0 is None then Ok (Some 50%:R) else Ok z0
  else if z0 is Some _ then Raise (ValueError z0_msg)
  else Ok z0.

(** [NPortMatrix.__new__]; the array is two-dimensional and square by its
    type. *)
Definition NPortMatrix_new n (matrix : 'M[C]_n) (t : ptype) (z0 : option C)
  : result (NPortMatrix n) :=
  z <- z0test t z0 ;; Ok (mkNPortMatrix matrix t z).

Section Methods.

Variable n : nat.
Implicit Types self : NPortMatrix n.

(** [NPortMatrixBase.convert_z0test] *)
Definition convert_z0test self (t : ptype) (z0 : option C)
  : result (option C) :=
  if t \in [:: TYPE_S; TYPE_T] then
    if z0 is None then
      if pm_type self \in [:: TYPE_S; TYPE_T] then Ok (pm_z0 self)
      else Ok (Some 50%:R)
    else Ok z0
  else if z0 is Some _ then Raise (ValueError z0_msg)
  else Ok z0.

(** A number is needed where the attribute may hold [None]. *)
Definition number (z : option C) : result C :=
  if z is Some v then Ok v
  else Raise (TypeError "unsupported operand type: NoneType").

(** [NPortMatrix.renormalize] *)
Definition renormalize self (z0 : C) : result (NPortMatrix n) :=
  _ <- assert (pm_type self == TYPE_S) ;;
  if Some z0 == pm_z0 self then Ok self
  else
    sz0 <- number (pm_z0 self) ;;
    r <- py_div (z0 - sz0) (z0 + sz0) ;;
    i <- invert (idty n - r *: pm_array self) ;;
    NPortMatrix_new ((pm_array self - r *: idty n) *m i)
                    (pm_type self) (Some z0).

(** [NPortMatrix.convert] *)
Definition convert self (t : ptype) (z0arg : option C)
  : result (NPortMatrix n) :=
  z0 <- convert_z0test self t z0arg ;;
  if t \in [:: TYPE_ABCD; TYPE_T] then
    Raise (TypeError "Cannot convert an NPort to this representation. Convert to a TwoNPort first")
  else if t \notin [:: TYPE_Z; TYPE_Y; TYPE_S] then
    Raise (TypeError "Unknown n-port parameter type.")
  else
    let a := pm_array self in
    let unbound := Raise (UnboundLocalError "result") in
    match pm_type self, t with
    | TYPE_S, TYPE_Z =>
        i <- invert (idty n - a) ;;
        sz0 <- number (pm_z0 self) ;;
        NPortMatrix_new (sz0 *: (2%:R *: i - idty n)) t z0
    | TYPE_S, TYPE_Y =>
        i <- invert (idty n + a) ;;
        sz0 <- number (pm_z0 self) ;;
        q <- array_div (2%:R *: i - idty n) sz0 ;;
        NPortMatrix_new q t z0
    | TYPE_S, TYPE_S =>
        if z0 == pm_z0 self then NPortMatrix_new a t z0
        else z <- number z0 ;; renormalize self z
    | TYPE_Z, TYPE_S =>
        z <- number z0 ;;
        q <- array_div a z ;;
        i <- invert (idty n + q) ;;
        NPortMatrix_new (idty n - 2%:R *: i) t z0
    | TYPE_Z, TYPE_Y => i <- invert a ;; NPortMatrix_new i t z0
    | TYPE_Z, TYPE_Z => NPortMatrix_new a t z0
    | TYPE_Y, TYPE_S =>
        z <- number z0 ;;
        i <- invert (idty n + z *: a) ;;
        NPortMatrix_new (2%:R *: i - idty n) t z0
    | TYPE_Y, TYPE_Z => i <- invert a ;; NPortMatrix_new i t z0
    | TYPE_Y, TYPE_Y => NPortMatrix_new a t z0
    | _, _ => unbound
    end.

End Methods.

(** ** Python sequences *)

(** Position designated by the index [k] in a sequence of length [len]:
    a negative index counts from the end. *)
Definition py_index (len : nat) (k : int) : result nat :=
  match k with
  | Posz i =>
      if (i < len)%N then Ok i else Raise (IndexError "index out of range")
  | Negz i =>
      if (i < len)%N then Ok (len - i.+1)%N
      else Raise (IndexError "index out of range")
  end.

(** [s[k]] *)
Definition getitem {A : Type} (x0 : A) (s : seq A) (k : int) : result A :=
  i <- py_index (size s) k ;; Ok (nth x0 s i).

(** [s[k] = v] *)
Definition setitem {A : Type} (x0 : A) (s : seq A) (k : int) (v : A)
  : result (seq A) :=
  i <- py_index (size s) k ;; Ok (set_nth x0 s i v).

(** [s[i:j]] for non-negative bounds. *)
Definition slice {A : Type} (s : seq A) (i j : nat) : seq A :=
  drop i (take j s).

(** [s.index(x)] *)
Definition list_index {A : eqType} (s : seq A) (x : A) : result nat :=
  if x \in s then Ok (index x s)
  else Raise (ValueError "x is not in list").

(** [min(s)] and [max(s)] *)
Definition py_min (s : seq int) : result int :=
  if s is x :: s' then Ok (foldl Order.min x s')
  else Raise (ValueError "min() arg is an empty sequence").

Definition py_max (s : seq int) : result int :=
  if s is x :: s' then Ok (foldl Order.max x s')
  else Raise (ValueError "max() arg is an empty sequence").

(** ** Arrays built from rows, rows and blocks of an array *)

(** [np.asarray(rows)] for a list of rows of one length. *)
Definition asarray q (rows : seq 'rV[C]_q) : 'M[C]_(size rows, q) :=
  \matrix_(i, j) (nth 0 rows i) 0 j.

(** Entry at a position given by natural numbers. *)
Definition item p q (a : 'M[C]_(p, q)) (i j : nat) : C :=
  match insub i, insub j with
  | Some i', Some j' => a i' j'
  | _, _ => 0
  end.

(** [a[k]]: the row designated by [k]. *)
Definition getrow p q (a : 'M[C]_(p, q)) (k : int) : result 'rV[C]_q :=
  i <- py_index p k ;; Ok (\row_j item a i j).

(** [a[r0:r0+n, c0:c0+n]] where the array has that many rows and columns. *)
Definition block n p q (a : 'M[C]_(p, q)) (r0 c0 : nat) : 'M[C]_n :=
  \matrix_(i, j) item a (r0 + i) (c0 + j).

(** ** NPortMatrix.twonportmatrix

    The class [TwoNPortMatrix] belongs to the module [twonport], which is not
    part of the sources: its constructor is a parameter, applied to the four
    quadrants, the type and the reference impedance. *)

Section TwoNPortMatrix.

Variable TwoNPortMatrixT : nat -> Type.
Variable TwoNPortMatrix_new :
  forall n, 'M[C]_n * 'M[C]_n * 'M[C]_n * 'M[C]_n -> ptype -> option C ->
            result (TwoNPortMatrixT n).

Definition quadrants n p q (matrix : 'M[C]_(p, q))
  : 'M[C]_n * 'M[C]_n * 'M[C]_n * 'M[C]_n :=
  (block n matrix 0 0, block n matrix 0 n,
   block n matrix n 0, block n matrix n n).

(** Rows and columns shuffled to the order [ports] (0-based). *)
Definition shuffle m (a : 'M[C]_m) (ports : seq int)
  : result {pq : nat * nat & 'M[C]_(pq.1, pq.2)} :=
  rows <- mapM (getrow a) ports ;;
  let matrix := (asarray rows)^T in
  rows2 <- mapM (getrow matrix) ports ;;
  let matrix2 := (asarray rows2)^T in
  Ok (existT (fun pq : nat * nat => 'M[C]_(pq.1, pq.2))
             (size rows, size rows2) matrix2).

Definition twonportmatrix m (self : NPortMatrix m)
    (inports outports : option (seq int))
  : result (TwoNPortMatrixT m./2) :=
  if odd m then
    Raise (TypeError "this NPortMatrix' number of ports is not a multiple of 2")
  else
    let n := m./2 in
    x <- match inports, outports with
         | None, None => Ok (quadrants n (pm_array self))
         | Some inp, Some outp =>
             _ <- assert (size inp == n) ;;
             _ <- assert (size outp == n) ;;
             let allports := undup (inp ++ outp) in
             _ <- assert (size allports == 2 * n)%N ;;
             lo <- py_min allports ;;
             _ <- (if lo == 1 then
                     hi <- py_max allports ;; assert (hi == Posz (2 * n))
                   else assert false) ;;
             let ports := [seq port - 1 | port <- inp]
                          ++ [seq port - 1 | port <- outp] in
             s <- shuffle (pm_array self) ports ;;
             Ok (quadrants n (projT2 s))
         | _, _ => Raise AssertionError
         end ;;
    TwoNPortMatrix_new x (pm_type self) (pm_z0 self).

End TwoNPortMatrix.

(** ** NPortMatrix.recombine *)

(** An entry of [portsets]: an int or a tuple of ints. *)
Inductive portset : Type :=
  | PortInt of int
  | PortTuple of seq int.

Definition port_msg : string :=
  "specified port number is higher than number of ports".

(** The [try] block: an IndexError is raised again with the message of the
    source, any other exception passes. *)
Definition reraise_IndexError {A : Type} (r : result A) : result A :=
  match r with
  | Raise (IndexError _) => Raise (IndexError port_msg)
  | _ => r
  end.

(** One turn of the loop: the row appended to [m]. *)
Definition recombine_row (nports : nat) (ports : portset) : result (seq int) :=
  let row := nseq nports (0 : int) in
  reraise_IndexError
    match ports with
    | PortTuple t =>
        _ <- assert (size t == 2%N) ;;
        p0 <- getitem 0 t 0 ;;
        row1 <- setitem 0 row (p0 - 1) 1 ;;
        p1 <- getitem 0 t 1 ;;
        setitem 0 row1 (p1 - 1) (-1)
    | PortInt p =>
        _ <- assert (p != 0) ;;
        if 0 < p then setitem 0 row (p - 1) 1
        else setitem 0 row (- p - 1) (-1)
    end.

(** Number of rows of [np.matrix(m)], where [m] has a row for each entry of
    [portsets]: a list without rows gives an array of one row and no
    column. *)
Definition matrix_rows {A : Type} (m : seq A) : nat :=
  if m is [::] then 1%N else size m.

(** [np.matrix(m, dtype=float)] for [p] rows of length [q]. *)
Definition np_matrix p q (m : seq (seq int)) : 'M[C]_(p, q) :=
  \matrix_(i, j) (nth 0 (nth [::] m i) j)%:~R.

Definition recombine n (self : NPortMatrix n) (portsets : seq portset)
  : result (NPortMatrix (matrix_rows portsets)) :=
  _ <- assert (pm_type self == TYPE_Z) ;;
  rows <- mapM (recombine_row n) portsets ;;
  if (rows == [::]) && (n != 0)%N then
    Raise (ValueError "shapes not aligned")
  else
    let m := np_matrix (matrix_rows portsets) n rows in
    NPortMatrix_new (m *m pm_array self *m m^T) (pm_type self) (pm_z0 self).

(** ** NPortBase, NPort *)

Record NPort (n : nat) : Type := mkNPort {
  np_freqs : seq rat;
  np_array : seq 'M[C]_n;
  np_type : ptype;
  np_z0 : option C
}.

(** [NPortBase.__new__] followed by [NPort.__new__]; every sample is
    two-dimensional and square by its type. *)
Definition NPort_new n (freqs : seq rat) (matrices : seq 'M[C]_n)
    (t : ptype) (z0 : option C) : result (NPort n) :=
  if size freqs != size matrices then
    Raise (ValueError "the list of frequencies and the list of matrices should have equal lenghts")
  else if matrices is [::] then Raise (IndexError "index out of range")
  else z <- z0test t z0 ;; Ok (mkNPort freqs matrices t z).

(** Names of the attributes an instance of [NPort] carries beyond those of
    [np.ndarray]: the ones set by [__new__] and [__array_finalize__]. *)
Definition NPort_attributes : seq string := [:: "type"; "z0"; "freqs"]%string.

Definition hasattr (name : string) : bool :=
  has (String.eqb name) NPort_attributes.

(** [self.matrices] *)
Definition getattr_matrices n (self : NPort n) : result (seq 'M[C]_n) :=
  if hasattr "matrices" then Ok (np_array self)
  else Raise (AttributeError "matrices").

Section Sweeps.

Variable n : nat.
Implicit Types (self this : NPort n) (x : rat) (xs : seq rat).
Implicit Types ys : seq 'M[C]_n.

(** *** scipy.interpolate.interp1d, linear, along the first axis

    As in the scipy releases contemporary with the source: [x] is taken as
    given, in ascending order; [searchsorted] is the position of the first
    entry not below the value. *)

Definition searchsorted xs x : nat := find (fun y => x <= y) xs.

Definition clip (k lo hi : nat) : nat := minn (maxn k lo) hi.

Definition call_linear xs ys x : result 'M[C]_n :=
  let k := clip (searchsorted xs x) 1 (size xs).-1 in
  let lo := k.-1 in
  let hi := k in
  let x_lo := nth 0 xs lo in
  let x_hi := nth 0 xs hi in
  let y_lo := nth 0 ys lo in
  let y_hi := nth 0 ys hi in
  slope <- array_div (y_hi - y_lo) (ratr (x_hi - x_lo)) ;;
  Ok (ratr (x - x_lo) *: slope + y_lo).

Definition below_bounds xs x : bool := x < head 0 xs.

Definition above_bounds xs x : bool := last 0 xs < x.

Definition interp1d xs ys (x_new : seq rat) : result (seq 'M[C]_n) :=
  if size xs != size ys then
    Raise (ValueError "x and y arrays must be equal in length along interpolation axis.")
  else if (size xs < 2)%N then
    Raise (ValueError "x and y arrays must have at least 2 entries")
  else if has (below_bounds xs) x_new then
    Raise (ValueError "A value in x_new is below the interpolation range.")
  else if has (above_bounds xs) x_new then
    Raise (ValueError "A value in x_new is above the interpolation range.")
  else mapM (call_linear xs ys) x_new.

(** [NPortBase.at] for an iterable of frequencies ... *)
Definition at_ self (freqs : seq rat) : result (NPort n) :=
  interpolated <- interp1d (np_freqs self) (np_array self) freqs ;;
  NPort_new freqs interpolated (np_type self) (np_z0 self).

(** ... and for a single frequency: the first sample of the result, as an
    NPortMatrix. *)
Definition at_single self (freq : rat) : result (NPortMatrix n) :=
  r <- at_ self [:: freq] ;;
  a <- getitem 0 (np_array r) 0 ;;
  NPortMatrix_new a (np_type r) (np_z0 r).

(** *** Arithmetic operators installed by [NPortBase.__metaclass__] *)

Inductive opname : Type :=
  | op_add | op_sub | op_mul | op_div
  | op_radd | op_rsub | op_rmul | op_rdiv.

(** Elementwise quotient of two arrays. *)
Definition elementwise_div (a b : 'M[C]_n) : result 'M[C]_n :=
  if [forall i, forall j, b i j != 0] then Ok (map2_mx (fun u v => u / v) a b)
  else Raise FloatingPointError.

(** The method of [np.ndarray] of that name, on one sample. *)
Definition ndarray_op (name : opname) (a b : 'M[C]_n) : result 'M[C]_n :=
  match name with
  | op_add => Ok (a + b)
  | op_sub => Ok (a - b)
  | op_mul => Ok (map2_mx *%R a b)
  | op_div => elementwise_div a b
  | op_radd => Ok (b + a)
  | op_rsub => Ok (b - a)
  | op_rmul => Ok (map2_mx *%R b a)
  | op_rdiv => elementwise_div b a
  end.

(** The same on two arrays of samples. *)
Definition ndarray_op_samples (name : opname) (a b : seq 'M[C]_n)
  : result (seq 'M[C]_n) :=
  if size a != size b then
    Raise (ValueError "operands could not be broadcast together")
  else mapM (fun ab => ndarray_op name ab.1 ab.2) (zip a b).

(** The right operand of an operator: a sweep, or a number. *)
Inductive operand : Type :=
  | Sweep of NPort n
  | Scalar of C.

(** [set(a).union(set(b))] as a sorted list. *)
Definition sorted_union (a b : seq rat) : seq rat :=
  sort <=%R (undup (a ++ b)).

(** [make_op(name, func)], the function [op(this, other)]. *)
Definition make_op (name : opname) this (other : operand)
  : result (NPort n) :=
  match other with
  | Sweep other =>
      if np_type other == np_type this then
        if np_z0 other != np_z0 this then
          Raise (ValueError "operands have different Z0")
        else
          let result_type := np_type this in
          let result_z0 := np_z0 this in
          f0 <- getitem 0 (np_freqs this) 0 ;;
          g0 <- getitem 0 (np_freqs other) 0 ;;
          let min_freq := Order.max f0 g0 in
          f1 <- getitem 0 (np_freqs this) (-1) ;;
          g1 <- getitem 0 (np_freqs other) (-1) ;;
          let max_freq := Order.min f1 g1 in
          let result_freqs := sorted_union (np_freqs this) (np_freqs other) in
          i <- list_index result_freqs min_freq ;;
          j <- list_index result_freqs max_freq ;;
          let result_freqs := slice result_freqs i j.+1 in
          this_matrices <- at_ this result_freqs ;;
          other_matrices <- at_ other result_freqs ;;
          result_matrices <- ndarray_op_samples name (np_array this_matrices)
                                                (np_array other_matrices) ;;
          NPort_new result_freqs result_matrices result_type result_z0
      else Raise (ValueError "operands have different types")
  | Scalar c =>
      let result_freqs := np_freqs this in
      result_matrices <- mapM (fun a => ndarray_op name a (const_mx c))
                              (np_array this) ;;
      NPort_new result_freqs result_matrices (np_type this) (np_z0 this)
  end.

(** *** True division

    The metaclass wraps the eight names of [opname]; [__truediv__] is not
    among them, so the method of [np.ndarray] is the one a sweep has.  It
    divides entry by entry, the operands broadcast along the first axis,
    and the result is viewed as an instance of the class of [this]:
    [__array_finalize__] copies [type], [z0] and [freqs] from [this], and no
    constructor runs. *)

(** The pairs of samples of two arrays broadcast along the first axis. *)
Definition broadcast (a b : seq 'M[C]_n)
  : result (seq ('M[C]_n * 'M[C]_n)) :=
  if size a == size b then Ok (zip a b)
  else if size a == 1%N then Ok [seq (head 0 a, v) | v <- b]
  else if size b == 1%N then Ok [seq (u, head 0 b) | u <- a]
  else Raise (ValueError "operands could not be broadcast together").

Definition truediv this (other : operand) : result (NPort n) :=
  match other with
  | Sweep other =>
      pairs <- broadcast (np_array this) (np_array other) ;;
      quotients <- mapM (fun ab => elementwise_div ab.1 ab.2) pairs ;;
      Ok (mkNPort (np_freqs this) quotients (np_type this) (np_z0 this))
  | Scalar c =>
      quotients <- mapM (fun a => elementwise_div a (const_mx c))
                        (np_array this) ;;
      Ok (mkNPort (np_freqs this) quotients (np_type this) (np_z0 this))
  end.

(** *** NPort.add *)

(** The sample given to [add]: an NPortMatrix or a plain complex array. *)
Inductive sample : Type :=
  | OfNPortMatrix of NPortMatrix n
  | OfArray of 'M[C]_n.

(** [np.insert(s, index, v)] along the first axis. *)
Definition np_insert {A : Type} (s : seq A) (index : nat) (v : A) : seq A :=
  take index s ++ v :: drop index s.

Definition add self (freq : rat) (matrix : sample) : result (NPort n) :=
  matrix <- match matrix with
            | OfNPortMatrix pm =>
                if (pm_type pm != np_type self) || (pm_z0 pm != np_z0 self)
                then c <- convert pm (np_type self) (np_z0 self) ;;
                     Ok (pm_array c)
                else Ok (pm_array pm)
            | OfArray a => Ok a
            end ;;
  let index := searchsorted (np_freqs self) freq in
  let freqs := np_insert (np_freqs self) index freq in
  self_matrices <- getattr_matrices self ;;
  let matrices := np_insert self_matrices index matrix in
  NPort_new freqs matrices (np_type self) (np_z0 self).

(** *** NPort.convert *)

Definition NPort_convert self (t : ptype) (z0 : option C) : result (NPort n) :=
  converted <- mapM (fun matrix =>
                       nportmatrix <- NPortMatrix_new matrix (np_type self)
                                                      (np_z0 self) ;;
                       convert nportmatrix t z0)
                    (np_array self) ;;
  NPort_new (np_freqs self) [seq pm_array c | c <- converted] t z0.

(** *** dot, first argument an NPort

    The branches for a first argument of class [TwoNPort] need the module
    [twonport] and are not modelled. *)

Definition merge_freqs (freqs1 freqs2 : seq rat) : result (seq rat) :=
  f0 <- getitem 0 freqs1 0 ;;
  g0 <- getitem 0 freqs2 0 ;;
  let minf := Order.max f0 g0 in
  f1 <- getitem 0 freqs1 (-1) ;;
  g1 <- getitem 0 freqs2 (-1) ;;
  let maxf := Order.min f1 g1 in
  let result := sorted_union freqs1 freqs2 in
  i <- list_index result minf ;;
  j <- list_index result maxf ;;
  Ok (slice result i j).

Definition dot (arg1 : NPort n) (arg2 : operand) : result (NPort n) :=
  match arg2 with
  | Sweep arg2 =>
      result_freqs <- merge_freqs (np_freqs arg1) (np_freqs arg2) ;;
      arg1_matrices <- at_ arg1 result_freqs ;;
      arg2_matrices <- at_ arg2 result_freqs ;;
      let result_matrices :=
        [seq ab.1 *m ab.2
        | ab <- zip (np_array arg1_matrices) (np_array arg2_matrices)] in
      NPort_new result_freqs result_matrices (np_type arg1) (np_z0 arg1)
  | Scalar _ =>
      let result_freqs := np_freqs arg1 in
      arg1_matrices <- getattr_matrices arg1 ;;
      Raise (NameError "other")
  end.

End Sweeps.

End Matrices.

(** ** Further methods of NPortMatrix and NPort *)

Section FurtherMethods.

Variable C : numClosedFieldType.

(** [NPortMatrix.submatrix]: [self[indices, :][:, indices]], each index
    designating a row, then a column, as a list index does. *)
Definition submatrix n (self : NPortMatrix C n) (ports : seq int)
  : result (NPortMatrix C (size ports)) :=
  let indices := [seq port - 1 | port <- ports] in
  rows <- mapM (py_index n) indices ;;
  columns <- mapM (py_index n) indices ;;
  NPortMatrix_new
    (\matrix_(i < size ports, j < size ports)
       item (pm_array self) (nth 0%N rows i) (nth 0%N columns j))
    (pm_type self) (pm_z0 self).

(** [np.sum(np.abs(a)**2, 1)]: a sum for each row. *)
Definition row_sums n (a : 'M[C]_n) : seq C :=
  [seq \sum_j `|a i j| ^+ 2 | i <- enum 'I_n].

(** [np.max] of a one-dimensional array. *)
Definition np_max (s : seq C) : result C :=
  if s is x :: s' then Ok (foldl Num.max x s')
  else Raise (ValueError "zero-size array to reduction operation maximum").

(** [NPortMatrix.ispassive] on a scattering matrix ... *)
Definition ispassive_scattering n (self : NPortMatrix C n) : result bool :=
  m <- np_max (row_sums (pm_array self)) ;;
  if 1 < m then Ok false else Ok true.

(** ... and on any matrix: the call on the matrix converted to S is the one
    above, [convert] returning an S-typed matrix. *)
Definition ispassive n (self : NPortMatrix C n) : result bool :=
  if pm_type self != TYPE_S then
    s <- convert self TYPE_S None ;; ispassive_scattering s
  else ispassive_scattering self.

(** [NPortMatrix.isreciprocal], [NPortMatrix.issymmetrical] *)
Definition isreciprocal n (self : NPortMatrix C n) : result bool :=
  Raise NotImplementedError.

Definition issymmetrical n (self : NPortMatrix C n) : result bool :=
  Raise NotImplementedError.

Section SweepMethods.

Variable n : nat.
Implicit Types self : NPort C n.

(** [NPortBase.__getitem__] for an int. *)
Definition NPort_getitem self (arg : int) : result (NPortMatrix C n) :=
  a <- getitem 0 (np_array self) arg ;;
  NPortMatrix_new a (np_type self) (np_z0 self).

(** The indices [j] of the inner loop of [average] for a window of [w]
    samples: from [- floor(w/2)] to [ceil(w/2) - 1]. *)
Definition window (w : nat) : seq int :=
  [seq Posz k - Posz w./2 | k <- iota 0 w].

(** [index = i + j], brought back into the sweep. *)
Definition clamp_index (len : nat) (index : int) : int :=
  if index < 0 then 0
  else if Posz len <= index then Posz len - 1
  else index.

Fixpoint foldM {A B : Type} (f : B -> A -> result B) (acc : B) (s : seq A)
  : result B :=
  match s with
  | [::] => Ok acc
  | a :: s' => b <- f acc a ;; foldM f b s'
  end.

(** [NPortBase.average] for a window of [w] samples ([w] a natural number). *)
Definition average self (w : nat) : result (NPort C n) :=
  let len := size (np_array self) in
  averaged <-
    mapM (fun i : nat =>
            foldM (fun acc j =>
                     s <- NPort_getitem self (clamp_index len (Posz i + j)) ;;
                     q <- array_div (pm_array s) w%:R ;;
                     Ok (acc + q))
                  0 (window w))
         (iota 0 len) ;;
  NPort_new (np_freqs self) averaged (np_type self) (np_z0 self).

(** [NPort.renormalize] *)
Definition NPort_renormalize self (z0 : C) : result (NPort C n) :=
  _ <- assert (np_type self == TYPE_S) ;;
  if Some z0 == np_z0 self then Ok self
  else
    renormalized <-
      mapM (fun matrix =>
              nportmatrix <- NPortMatrix_new matrix (np_type self)
                                             (np_z0 self) ;;
              renormalize nportmatrix z0)
           (np_array self) ;;
    NPort_new (np_freqs self) [seq pm_array r | r <- renormalized]
              (np_type self) (Some z0).

(** [NPort.invert] *)
Definition NPort_invert self : result (NPort C n) :=
  inverted <-
    mapM (fun matrix =>
            nportmatrix <- NPortMatrix_new matrix (np_type self)
                                           (np_z0 self) ;;
            invert (pm_array nportmatrix))
         (np_array self) ;;
  NPort_new (np_freqs self) inverted (np_type self) (np_z0 self).

(** [NPort.recombine] *)
Definition NPort_recombine self (portsets : seq portset)
  : result (NPort C (matrix_rows portsets)) :=
  recombined <-
    mapM (fun matrix =>
            nportmatrix <- NPortMatrix_new matrix (np_type self)
                                           (np_z0 self) ;;
            z <- convert nportmatrix TYPE_Z None ;;
            recomb <- recombine z portsets ;;
            convert recomb (np_type self) None)
         (np_array self) ;;
  NPort_new (np_freqs self) [seq pm_array r | r <- recombined]
            (np_type self) (np_z0 self).

(** [NPort.ispassive] *)
Fixpoint all_passive (t : ptype) (z0 : option C) (ms : seq 'M[C]_n)
  : result bool :=
  match ms with
  | [::] => Ok true
  | matrix :: ms' =>
      nportmatrix <- NPortMatrix_new matrix t z0 ;;
      b <- ispassive nportmatrix ;;
      if b then all_passive t z0 ms' else Ok false
  end.

Definition NPort_ispassive self : result bool :=
  all_passive (np_type self) (np_z0 self) (np_array self).

End SweepMethods.

End FurtherMethods.

(** ** Notions of the specification used to state the properties *)

(** A port number of an n-port. *)
Definition valid_port (n : nat) (p : int) : bool := (0 < p) && (p <= Posz n).

(** A valid entry of [portsets]: a signed port number, or a pair of two
    different port numbers. *)
Definition valid_portset (n : nat) (ports : portset) : bool :=
  match ports with
  | PortInt p => (p != 0) && (`|p| <= n)%N
  | PortTuple t =>
      [&& size t == 2%N, all (valid_port n) t & nth 0 t 0 != nth 0 t 1]
  end.

(** The transform matrix as the specification words it, at column [j]
    (counted from 0) of the row of one entry: a single +1 or -1 in the column
    of a signed port number; +1 at the column of the first port of a pair
    and -1 at the column of the second. *)
Definition transform_entry (ports : portset) (j : nat) : int :=
  match ports with
  | PortInt p => if j == `|p|.-1 then sgz p else 0
  | PortTuple t =>
      (j == `|nth 0 t 0|.-1)%:R - (j == `|nth 0 t 1|.-1)%:R
  end.

Definition transform_matrix (C : numClosedFieldType) (n : nat)
    (portsets : seq portset) : 'M[C]_(matrix_rows portsets, n) :=
  \matrix_(i, j) (transform_entry (nth (PortInt 0) portsets i) j)%:~R.

(** The sample frequency [x] lies between the sample frequencies [k] and
    [k + 1] of [fs]. *)
Definition brackets (fs : seq rat) (k : nat) (x : rat) : bool :=
  (k.+1 < size fs)%N && (nth 0 fs k <= x <= nth 0 fs k.+1).

(** A sweep interpolated at [x], as the specification words it: on the line
    through the samples [k] and [k + 1]. *)
Definition interpolated (C : numClosedFieldType) (n : nat) (fs : seq rat)
    (ms : seq 'M[C]_n) (k : nat) (x : rat) : 'M[C]_n :=
  nth 0 ms k
  + ratr ((x - nth 0 fs k) / (nth 0 fs k.+1 - nth 0 fs k))
    *: (nth 0 ms k.+1 - nth 0 ms k).

(** The ports [1 .. m]. *)
Definition all_ports (m : nat) : seq int := [seq Posz k.+1 | k <- iota 0 m].

(** Two port sets that overlap; that cover [1 .. m] exactly. *)
Definition overlap (inports outports : seq int) : bool :=
  has (mem inports) outports.

Definition covers_exactly (m : nat) (inports outports : seq int) : bool :=
  all (mem (inports ++ outports)) (all_ports m)
  && all (mem (all_ports m)) (inports ++ outports).

(** * Properties *)

Section MatrixProperties.

Variable C : numClosedFieldType.
Variable n : nat.
Implicit Types (A B : 'M[C]_n) (self : NPortMatrix C n) (z : C).

Lemma two_neq0 : (2%:R : C) != 0.
Proof. by rewrite pnatr_eq0. Qed.

Lemma invert_unit A : A \in unitmx -> invert A = Ok (invmx A).
Proof. by rewrite /invert => ->. Qed.

Lemma array_div_neq0 A z : z != 0 -> array_div A z = Ok (z^-1 *: A).
Proof. by rewrite /array_div => /negPf ->. Qed.

Lemma py_div_neq0 (x y : C) : y != 0 -> py_div x y = Ok (x / y).
Proof. by rewrite /py_div => /negPf ->. Qed.

(** What is left of [2 (2 B^-1)^-1 - 1] for an invertible [B]. *)
Lemma double_inverse B :
  B \in unitmx ->
  2%:R *: invmx B \in unitmx /\
  2%:R *: invmx (2%:R *: invmx B) - 1%:M = B - 1%:M.
Proof.
move=> uB.
have u2 : (2%:R : C) \is a GRing.unit by rewrite unitfE two_neq0.
have uS : 2%:R *: invmx B \in unitmx by rewrite unitmxZ // unitmx_inv.
split=> //.
by rewrite invmxZ // invmxK scalerA divff ?two_neq0 // scale1r.
Qed.

Lemma NPortMatrix_new_plain A (t : ptype) :
  t \notin [:: TYPE_S; TYPE_T] ->
  NPortMatrix_new A t None = Ok (mkNPortMatrix A t None).
Proof. by rewrite /NPortMatrix_new /z0test => /negPf ->. Qed.

Lemma NPortMatrix_new_Some A (t : ptype) z :
  t \in [:: TYPE_S; TYPE_T] ->
  NPortMatrix_new A t (Some z) = Ok (mkNPortMatrix A t (Some z)).
Proof. by rewrite /NPortMatrix_new /z0test => ->. Qed.

(** Z to S at [z], then back. *)
Lemma roundtrip_Z A z :
  z != 0 -> 1%:M + z^-1 *: A \in unitmx ->
  (s <- convert (mkNPortMatrix A TYPE_Z None) TYPE_S (Some z) ;;
   convert s TYPE_Z None) = Ok (mkNPortMatrix A TYPE_Z None).
Proof.
move=> z0 uB; have [uS eS] := double_inverse uB.
rewrite /convert /idty /= array_div_neq0 //= invert_unit //=.
rewrite opprB addrCA subrr addr0 invert_unit //= NPortMatrix_new_plain //.
by rewrite eS addrAC subrr add0r scalerA divff // scale1r.
Qed.

(** Y to S at [z], then back. *)
Lemma roundtrip_Y A z :
  z != 0 -> 1%:M + z *: A \in unitmx ->
  (s <- convert (mkNPortMatrix A TYPE_Y None) TYPE_S (Some z) ;;
   convert s TYPE_Y None) = Ok (mkNPortMatrix A TYPE_Y None).
Proof.
move=> z0 uB; have [uS eS] := double_inverse uB.
rewrite /convert /idty /= invert_unit //=.
rewrite addrCA subrr addr0 invert_unit //= array_div_neq0 //=.
rewrite NPortMatrix_new_plain //.
by rewrite eS addrAC subrr add0r scalerA mulVf // scale1r.
Qed.

(** C1, as amended: for a nonzero reference impedance [z0], a matrix built
    as a Z-typed NPortMatrix and converted to S at [z0] and back to Z is
    returned unchanged, provided [1 + A/z0] is invertible; and a matrix built
    as a Y-typed NPortMatrix and converted to S at [z0] and back to Y is
    returned unchanged, provided [1 + A z0] is invertible. *)
Theorem convert_roundtrip A z0 :
  z0 != 0 ->
  (forall M, NPortMatrix_new A TYPE_Z None = Ok M ->
     1%:M + z0^-1 *: A \in unitmx ->
     (s <- convert M TYPE_S (Some z0) ;; convert s TYPE_Z None) = Ok M)
  /\
  (forall M, NPortMatrix_new A TYPE_Y None = Ok M ->
     1%:M + z0 *: A \in unitmx ->
     (s <- convert M TYPE_S (Some z0) ;; convert s TYPE_Y None) = Ok M).
Proof.
move=> z0N; split=> M; rewrite NPortMatrix_new_plain // => -[<-] uB.
  exact: roundtrip_Z.
exact: roundtrip_Y.
Qed.

Lemma renormalize_same self z :
  pm_type self = TYPE_S -> pm_z0 self = Some z -> renormalize self z = Ok self.
Proof. by rewrite /renormalize => -> -> /=; rewrite eqxx. Qed.

Lemma renormalize_tagged self z r1 :
  renormalize self z = Ok r1 -> pm_type r1 = TYPE_S /\ pm_z0 r1 = Some z.
Proof.
rewrite /renormalize; case: eqP => //= tS.
case: eqP => [e [<-] //|_].
case: (pm_z0 self) => //= sz0.
case: (py_div _ _) => //= r; case: (invert _) => //= i.
by rewrite tS NPortMatrix_new_Some // => -[<-].
Qed.

Lemma renormalize_other self z0 newZ0 :
  pm_type self = TYPE_S -> pm_z0 self = Some z0 ->
  newZ0 != z0 -> newZ0 + z0 != 0 ->
  let r := (newZ0 - z0) / (newZ0 + z0) in
  1%:M - r *: pm_array self \in unitmx ->
  renormalize self newZ0 =
    Ok (mkNPortMatrix
          ((pm_array self - r *: 1%:M) *m invmx (1%:M - r *: pm_array self))
          TYPE_S (Some newZ0)).
Proof.
move=> tS zS ne nz r ur; rewrite /renormalize tS zS /=.
have /negPf-> : Some newZ0 != Some z0 by apply: contra ne => /eqP[->].
by rewrite /= py_div_neq0 //= /idty invert_unit.
Qed.

(** C5: on an S-typed NPortMatrix of reference impedance [z0], renormalize
    to [z0] returns the matrix itself; a renormalization that has returned
    [r1] returns [r1] again when applied to [r1] with the same impedance;
    and for [newZ0] different from [z0] the result is
    [(S - r I) (I - r S)^-1] with [r = (newZ0 - z0) / (newZ0 + z0)], tagged
    S and [newZ0] (the quotient and the inverse being defined). *)
Theorem renormalize_spec self z0 :
  pm_type self = TYPE_S -> pm_z0 self = Some z0 ->
  [/\ renormalize self z0 = Ok self,
      forall newZ0 r1,
        renormalize self newZ0 = Ok r1 -> renormalize r1 newZ0 = Ok r1
    & forall newZ0, newZ0 != z0 -> newZ0 + z0 != 0 ->
        let r := (newZ0 - z0) / (newZ0 + z0) in
        1%:M - r *: pm_array self \in unitmx ->
        renormalize self newZ0 =
          Ok (mkNPortMatrix
                ((pm_array self - r *: 1%:M)
                 *m invmx (1%:M - r *: pm_array self))
                TYPE_S (Some newZ0))].
Proof.
move=> tS zS; split; first exact: renormalize_same.
  by move=> newZ0 r1 /renormalize_tagged[t1 z1]; apply: renormalize_same.
by move=> newZ0 ne nz r ur; apply: renormalize_other.
Qed.

End MatrixProperties.

Section SweepProperties.

Variable C : numClosedFieldType.
Variable n : nat.
Implicit Types (self this other : NPort C n) (fs : seq rat).
Implicit Types ms : seq 'M[C]_n.

(** The constructor rule leaves its own outcome as it is. *)
Lemma z0test_idem (t : ptype) (z0 z : option C) :
  z0test t z0 = Ok z -> z0test t z = Ok z.
Proof.
rewrite /z0test; case: ifP => _; first by case: z0 => [v|] [<-].
by case: z0 => // -[<-].
Qed.

Lemma NPort_newP fs ms (t : ptype) (z0 : option C) self :
  NPort_new fs ms t z0 = Ok self ->
  [/\ size fs = size ms, ms != [::], z0test t z0 = Ok (np_z0 self)
    & self = mkNPort fs ms t (np_z0 self)].
Proof.
rewrite /NPort_new; case: eqP => //= sz.
case: ms sz => [|m ms] //= sz.
by case: (z0test t z0) => //= z [<-].
Qed.

Lemma NPort_new_ok fs ms (t : ptype) (z0 z : option C) :
  size fs = size ms -> ms != [::] -> z0test t z0 = Ok z ->
  NPort_new fs ms t z0 = Ok (mkNPort fs ms t z).
Proof.
rewrite /NPort_new => -> nz ->; rewrite eqxx /=.
by case: ms nz.
Qed.

(** The guard of the operators the metaclass installs: between two sweeps
    of one parameter type and of different reference impedances, each of the
    eight wrapped methods raises the impedance-mismatch ValueError, whatever
    the frequencies and the samples of the operands are. *)
Lemma op_impedance_mismatch (name : opname) this other :
  np_type other = np_type this -> np_z0 other <> np_z0 this ->
  make_op name this (Sweep other)
  = Raise (ValueError "operands have different Z0").
Proof. by rewrite /make_op => -> /eqP ->; rewrite eqxx. Qed.

(** C9, on the code: [add] stops at the attribute [matrices], which an NPort
    does not have, for every sweep, frequency and complex array. *)
Theorem add_raises self (freq : rat) (matrix : 'M[C]_n) :
  add self freq (OfArray matrix) = Raise (AttributeError "matrices").
Proof. by []. Qed.

Lemma add_never_returns self (freq : rat) (matrix : sample C n) :
  ~~ is_ok (add self freq matrix).
Proof.
rewrite /add; case: matrix => [pm|a] //=.
by case: ifP => _ //=; case: (convert _ _ _).
Qed.

Lemma convert_S_same (a : 'M[C]_n) (z : C) :
  (nportmatrix <- NPortMatrix_new a TYPE_S (Some z) ;;
   convert nportmatrix TYPE_S None)
  = Ok (mkNPortMatrix a TYPE_S (Some z)).
Proof. by rewrite /convert /= eqxx. Qed.

Lemma mapM_ok {A B : Type} (f : A -> result B) (g : A -> B) (s : seq A) :
  (forall a, f a = Ok (g a)) -> mapM f s = Ok [seq g a | a <- s].
Proof. by move=> fg; elim: s => //= a s ->; rewrite fg. Qed.

(** The sweep [convert] returns is tagged by the constructor, from the
    [z0] argument as the caller gave it. *)
Lemma NPort_convert_tag self (t : ptype) (z0 : option C) r :
  NPort_convert self t z0 = Ok r ->
  np_type r = t /\ z0test t z0 = Ok (np_z0 r).
Proof.
rewrite /NPort_convert; case: (mapM _ _) => //= converted.
by case/NPort_newP=> _ _ zE ->.
Qed.

(** C10: the sweep that [NPort.convert] returns carries the impedance the
    constructor makes of the [z0] argument as given; so an S-typed sweep of
    reference impedance [z] other than 50, converted to S without a [z0]
    argument, keeps its samples, each of them converted at the impedance
    [z], and is tagged with the impedance 50. *)
Theorem NPort_convert_default_z0 fs ms (z : C) self :
  NPort_new fs ms TYPE_S (Some z) = Ok self -> z != 50%:R ->
  [/\ forall t z0 r, NPort_convert self t z0 = Ok r ->
        np_type r = t /\ z0test t z0 = Ok (np_z0 r),
      NPort_convert self TYPE_S None = Ok (mkNPort fs ms TYPE_S (Some 50%:R)),
      forall a, a \in ms ->
        (nportmatrix <- NPortMatrix_new a (np_type self) (np_z0 self) ;;
         convert nportmatrix TYPE_S None)
        = Ok (mkNPortMatrix a TYPE_S (Some z))
    & Some 50%:R <> np_z0 self].
Proof.
move=> /NPort_newP[sz nz [zE] ->] z50; rewrite -zE /=; split.
- by move=> t z0 r; apply: NPort_convert_tag.
- rewrite /NPort_convert /= (mapM_ok (g := fun a => mkNPortMatrix a TYPE_S (Some z))).
    by move=> a; apply: convert_S_same.
  by rewrite /= -map_comp map_id; apply: NPort_new_ok.
- by move=> a _; apply: convert_S_same.
- by case=> /esym/eqP; rewrite (negPf z50).
Qed.

End SweepProperties.

(** ** Slices of a strictly increasing list, cut at two of its elements *)

Section SortedSlices.

Variables (d : Order.disp_t) (T : orderType d).
Implicit Types (s : seq T) (x y : T).
Local Open Scope order_scope.

Lemma filter_none (p : pred T) s : all (predC p) s -> [seq y <- s | p y] = [::].
Proof.
move=> /allP np; rewrite -(filter_pred0 s); apply: eq_in_filter => y /np /=.
by move/negPf.
Qed.

Lemma take_index_lt s x :
  sorted <%O s -> x \in s -> take (index x s) s = [seq y <- s | y < x].
Proof.
elim: s => [|y s IH] //= ps; rewrite inE eq_sym.
have ally := lt_path_min ps.
case: eqVneq => [<- _|_ /= xs].
  rewrite ltxx filter_none //; apply: sub_all ally => z /= yz.
  by rewrite -leNgt ltW.
rewrite (allP ally x xs) IH //; exact: path_sorted ps.
Qed.

Lemma take_index_le s x :
  sorted <%O s -> x \in s -> take (index x s).+1 s = [seq y <- s | y <= x].
Proof.
elim: s => [|y s IH] //= ps; rewrite inE eq_sym.
have ally := lt_path_min ps.
case: eqVneq => [<- _|_ /= xs].
  rewrite lexx take0 filter_none //; apply: sub_all ally => z /= yz.
  by rewrite -ltNge.
rewrite (ltW (allP ally x xs)) IH //; exact: path_sorted ps.
Qed.

Lemma drop_index_ge s x :
  sorted <%O s -> x \in s -> drop (index x s) s = [seq y <- s | x <= y].
Proof.
elim: s => [|y s IH] //= ps; rewrite inE eq_sym.
have ally := lt_path_min ps.
case: eqVneq => [<- _|_ /= xs].
  rewrite lexx; congr cons; apply/esym/all_filterP.
  by apply: sub_all ally => z /ltW.
by rewrite leNgt (allP ally x xs) /= IH //; exact: path_sorted ps.
Qed.

(** [s[i:j]] for [i], [j] the positions of [x], [y]. *)
Lemma slice_index_lt s x y :
  sorted <%O s -> x \in s -> y \in s -> x < y ->
  slice s (index x s) (index y s) = [seq z <- s | x <= z < y].
Proof.
move=> ss xs ys xy; rewrite /slice take_index_lt //.
have sf : sorted <%O [seq z <- s | z < y] by apply: sorted_filter ss; apply: lt_trans.
have xf : x \in [seq z <- s | z < y] by rewrite mem_filter xy.
have <- : index x [seq z <- s | z < y] = index x s.
  rewrite -[in RHS](cat_take_drop (index y s) s) index_cat.
  by rewrite take_index_lt // xf.
rewrite drop_index_ge // -filter_predI; apply: eq_filter => z /=.
by [].
Qed.

Lemma slice_index_le s x y :
  sorted <%O s -> x \in s -> y \in s -> x <= y ->
  slice s (index x s) (index y s).+1 = [seq z <- s | x <= z <= y].
Proof.
move=> ss xs ys xy; rewrite /slice take_index_le //.
have sf : sorted <%O [seq z <- s | z <= y] by apply: sorted_filter ss; apply: lt_trans.
have xf : x \in [seq z <- s | z <= y] by rewrite mem_filter xy.
have <- : index x [seq z <- s | z <= y] = index x s.
  rewrite -[in RHS](cat_take_drop (index y s).+1 s) index_cat.
  by rewrite take_index_le // xf.
rewrite drop_index_ge // -filter_predI; apply: eq_filter => z /=.
by [].
Qed.

End SortedSlices.

(** ** Interpolation of a sweep inside its range *)

Section Interpolation.

Variable C : numClosedFieldType.
Variable n : nat.
Implicit Types (self : NPort C n) (fs grid : seq rat) (x f : rat).
Implicit Types ms : seq 'M[C]_n.

Lemma mapM_all {A : eqType} {B : Type} (f : A -> result B) (s : seq A) :
  {in s, forall a, is_ok (f a)} ->
  exists2 bs, mapM f s = Ok bs
            & size bs = size s /\
              forall a0 b0 i, (i < size s)%N ->
                              f (nth a0 s i) = Ok (nth b0 bs i).
Proof.
elim: s => [|a s IH] ok_s; first by exists [::].
have [x xs|bs bsE [sz nth_bs]] := IH; first by apply: ok_s; rewrite inE xs orbT.
have := ok_s a (mem_head a s); rewrite /= bsE; case fa: (f a) => [b|] // _ /=.
exists (b :: bs) => //; split; first by rewrite /= sz.
by move=> a0 b0 [|i] //= lt_i; apply: nth_bs.
Qed.

Lemma getitem_first {A : Type} (x0 : A) (s : seq A) :
  (0 < size s)%N -> getitem x0 s 0 = Ok (head x0 s).
Proof. by case: s. Qed.

Lemma getitem_last {A : Type} (x0 : A) (s : seq A) :
  (0 < size s)%N -> getitem x0 s (-1) = Ok (last x0 s).
Proof.
case: s => // a s _; rewrite /getitem /py_index /= subn1 /=.
by rewrite (last_nth x0).
Qed.

Lemma call_linear_ok fs ms x :
  sorted <%R fs -> (1 < size fs)%N -> is_ok (call_linear (C := C) (n := n) fs ms x).
Proof.
move=> sf sz; rewrite /call_linear.
set k := clip _ _ _.
have k_pos : (0 < k)%N.
  by rewrite /k /clip leq_min leq_max orbT /=; case: (size fs) sz => [|[|m]].
have k_lt : (k < size fs)%N.
  rewrite /k /clip; apply: leq_ltn_trans (geq_minr _ _) _.
  by rewrite prednK // (ltn_trans _ sz).
have lt_x : nth 0 fs k.-1 < nth 0 fs k.
  rewrite (lt_sorted_ltn_nth 0 sf) ?inE //; last by rewrite prednK.
  by apply: leq_ltn_trans k_lt; apply: leq_pred.
rewrite array_div_neq0 // fmorph_eq0 subr_eq0.
by rewrite gt_eqF.
Qed.

Lemma interp1d_in_range fs ms grid :
  size fs = size ms -> sorted <%R fs -> (1 < size fs)%N ->
  all (fun g => head 0 fs <= g <= last 0 fs) grid ->
  interp1d fs ms grid = mapM (call_linear fs ms) grid.
Proof.
move=> sz sf sz2 /allP in_r; rewrite /interp1d sz eqxx /= -sz ltnNge sz2 /=.
have -> : has (below_bounds fs) grid = false.
  apply/negbTE/hasPn => g /in_r /andP[le1 _].
  by rewrite /below_bounds -leNgt.
have -> // : has (above_bounds fs) grid = false.
apply/negbTE/hasPn => g /in_r /andP[_ le2].
by rewrite /above_bounds -leNgt.
Qed.

(** [at] on a grid inside the range of the sweep returns a sweep over the
    grid, whose samples are those [at] returns frequency by frequency. *)
Lemma at_in_range fs ms (t : ptype) (z0 : option C) self grid :
  NPort_new fs ms t z0 = Ok self -> sorted <%R fs -> (1 < size fs)%N ->
  grid != [::] -> all (fun g => head 0 fs <= g <= last 0 fs) grid ->
  exists2 vs,
    at_ self grid = Ok (mkNPort grid vs t (np_z0 self))
    & size vs = size grid /\
      forall i, (i < size grid)%N ->
        at_single self (nth 0 grid i)
        = Ok (mkNPortMatrix (nth 0 vs i) t (np_z0 self)).
Proof.
move=> /NPort_newP[sz nz zE ->] sf sz2 gN in_r /=.
have zI := z0test_idem zE.
have [|vs vsE [szv nthv]] := @mapM_all _ _ (call_linear fs ms) grid.
  by move=> g _; apply: call_linear_ok.
exists vs; rewrite /at_ /=.
  rewrite interp1d_in_range // vsE /=; apply: NPort_new_ok => //.
  by rewrite -size_eq0 szv size_eq0.
split=> // i lt_i.
have in_i : all (fun g => head 0 fs <= g <= last 0 fs) [:: nth 0 grid i].
  by rewrite /= andbT (allP in_r) // mem_nth.
rewrite /at_single /at_ /= interp1d_in_range //.
rewrite /= (nthv 0 0) //= /NPort_new /= zI /=.
by rewrite /NPortMatrix_new zI.
Qed.

End Interpolation.

(** ** Frequency alignment: the operators and dot *)

Section Alignment.

Variable C : numClosedFieldType.
Variable n : nat.
Implicit Types (A B : NPort C n) (fa fb : seq rat) (x f : rat).
Implicit Types ma mb : seq 'M[C]_n.

Lemma sorted_union_lt fa fb : sorted <%R (sorted_union fa fb).
Proof.
by rewrite lt_sorted_uniq_le sort_uniq undup_uniq sort_le_sorted.
Qed.

Lemma mem_sorted_union fa fb x :
  (x \in sorted_union fa fb) = (x \in fa) || (x \in fb).
Proof. by rewrite mem_sort mem_undup mem_cat. Qed.

Lemma head_mem fa : (0 < size fa)%N -> head 0 fa \in fa.
Proof. by case: fa => // a s _; apply: mem_head. Qed.

Lemma last_mem fa : (0 < size fa)%N -> last 0 fa \in fa.
Proof. by case: fa => // a s _; rewrite /= mem_last. Qed.

Lemma lo_mem fa fb :
  (0 < size fa)%N -> (0 < size fb)%N ->
  Order.max (head 0 fa) (head 0 fb) \in sorted_union fa fb.
Proof.
move=> /head_mem ha /head_mem hb; rewrite mem_sorted_union.
by case: leP => _; rewrite ?ha ?hb ?orbT.
Qed.

Lemma hi_mem fa fb :
  (0 < size fa)%N -> (0 < size fb)%N ->
  Order.min (last 0 fa) (last 0 fb) \in sorted_union fa fb.
Proof.
move=> /last_mem ha /last_mem hb; rewrite mem_sorted_union.
by case: leP => _; rewrite ?ha ?hb ?orbT.
Qed.

(** A range that contains two different values has two sample points. *)
Lemma two_samples fa x y :
  head 0 fa <= x -> x < y -> y <= last 0 fa -> (1 < size fa)%N.
Proof.
case: fa => [|a [|b s]] //= ax xy ya.
  by have := le_lt_trans ax (lt_le_trans xy ya); rewrite ltxx.
by have := le_lt_trans ax (lt_le_trans xy ya); rewrite ltxx.
Qed.

Lemma built_size fa ma (t : ptype) (z : option C) A :
  NPort_new fa ma t z = Ok A -> (0 < size fa)%N.
Proof. by case/NPort_newP=> -> nz _ _; rewrite lt0n size_eq0. Qed.

(** What [merge_freqs] and the operators compute before interpolating. *)
Lemma bounds_found fa fb :
  (0 < size fa)%N -> (0 < size fb)%N ->
  let lo := Order.max (head 0 fa) (head 0 fb) in
  let hi := Order.min (last 0 fa) (last 0 fb) in
  let u := sorted_union fa fb in
  [/\ getitem 0 fa 0 = Ok (head 0 fa), getitem 0 fb 0 = Ok (head 0 fb),
      getitem 0 fa (-1) = Ok (last 0 fa), getitem 0 fb (-1) = Ok (last 0 fb)
    & list_index u lo = Ok (index lo u) /\ list_index u hi = Ok (index hi u)].
Proof.
move=> sa sb lo hi u; split; rewrite ?getitem_first ?getitem_last //.
by rewrite /list_index /u /lo /hi lo_mem // hi_mem.
Qed.

Lemma merge_freqs_overlap fa fb :
  (0 < size fa)%N -> (0 < size fb)%N ->
  let lo := Order.max (head 0 fa) (head 0 fb) in
  let hi := Order.min (last 0 fa) (last 0 fb) in
  lo < hi ->
  merge_freqs fa fb = Ok [seq f <- sorted_union fa fb | lo <= f < hi].
Proof.
move=> sa sb lo hi lt_lh; rewrite /merge_freqs.
have [-> -> -> -> [/= -> ->]] := bounds_found sa sb.
by rewrite /= slice_index_lt ?sorted_union_lt ?lo_mem ?hi_mem.
Qed.

(** Both operands can be interpolated on a grid within the overlap. *)
Lemma grid_in_range fa fb (grid : seq rat) :
  let lo := Order.max (head 0 fa) (head 0 fb) in
  let hi := Order.min (last 0 fa) (last 0 fb) in
  all (fun g => lo <= g <= hi) grid ->
  all (fun g => head 0 fa <= g <= last 0 fa) grid
  /\ all (fun g => head 0 fb <= g <= last 0 fb) grid.
Proof.
move=> lo hi /allP in_g; split; apply/allP => g /in_g /andP[].
  rewrite /lo /hi ge_max le_min => /andP[-> _] /andP[-> _] //.
by rewrite /lo /hi ge_max le_min => /andP[_ ->] /andP[_ ->].
Qed.

Lemma filter_bounds (p : pred rat) (u : seq rat) (lo hi : rat) :
  (forall g, p g -> lo <= g <= hi) ->
  all (fun g => lo <= g <= hi) [seq f <- u | p f].
Proof. by move=> sub; apply/allP => g; rewrite mem_filter => /andP[/sub]. Qed.

Lemma nth_zipwith (op : 'M[C]_n -> 'M[C]_n -> 'M[C]_n) ma mb i :
  size ma = size mb -> (i < size ma)%N ->
  nth 0 [seq op ab.1 ab.2 | ab <- zip ma mb] i = op (nth 0 ma i) (nth 0 mb i).
Proof.
move=> sz lt_i; rewrite (nth_map (0, 0)) ?nth_zip //.
by rewrite size_zip -sz minnn.
Qed.

(** Where the two ranges have a single frequency in common, the grid of dot
    is empty and the constructor of the result fails. *)
Lemma dot_single_common_frequency fa ma fb mb (ta tb : ptype)
    (za zb : option C) A B :
  NPort_new fa ma ta za = Ok A -> NPort_new fb mb tb zb = Ok B ->
  (1 < size fa)%N -> (1 < size fb)%N ->
  Order.max (head 0 fa) (head 0 fb) = Order.min (last 0 fa) (last 0 fb) ->
  dot A (Sweep B) = Raise (IndexError "index out of range").
Proof.
move=> bA bB sza szb eq_lh.
have sa := built_size bA; have sb := built_size bB.
have [sA _ _ eA] := NPort_newP bA; have [sB _ _ eB] := NPort_newP bB.
rewrite /dot eA eB /= /merge_freqs.
have [-> -> -> -> [/= -> ->]] := bounds_found sa sb.
rewrite /= eq_lh /slice drop_oversize ?size_take_min ?geq_minl //.
rewrite /at_ /= /interp1d -sA -sB !eqxx /=.
by rewrite [(size fa < 2)%N]ltnNge sza.
Qed.

End Alignment.

(** ** Recombination of ports *)

Section Recombine.

Variable C : numClosedFieldType.
Variable n : nat.
Implicit Types (self : NPortMatrix C n) (p q : int) (j k : nat).

Lemma py_index_lt k : (k < n)%N -> py_index n (Posz k) = Ok k.
Proof. by rewrite /py_index => ->. Qed.

Lemma predz k : Posz k.+1 - 1 = Posz k.
Proof. by rewrite -addn1 PoszD addrK. Qed.

(** The row the loop builds for a valid entry. *)
Lemma recombine_row_valid (ports : portset) :
  valid_portset n ports ->
  exists2 row, recombine_row n ports = Ok row
             & size row = n /\ forall j, nth 0 row j = transform_entry ports j.
Proof.
case: ports => [p|t] /=.
- case: p => k /andP[p0 pn]; rewrite /recombine_row /= ?p0 /=.
    case: k p0 pn => // k _ kn; rewrite ltz_nat /= predz /setitem size_nseq.
    rewrite py_index_lt //=; eexists; first by [].
    split=> [|j]; first by rewrite size_set_nth size_nseq; apply/maxn_idPr.
    by rewrite nth_set_nth /= nth_nseq if_same gtr0_sgz.
  rewrite NegzE opprK predz /setitem size_nseq py_index_lt //=.
  eexists; first by [].
  split=> [|j]; first by rewrite size_set_nth size_nseq; apply/maxn_idPr.
  by rewrite nth_set_nth /= nth_nseq if_same ltr0_sgz.
- case: t => [|p [|q [|? ?]]] //= /andP[/and3P[vp vq _] pq].
  case/andP: vp pq => p0 pn; case/andP: vq => q0 qn.
  case: p p0 pn => [[|a]|] // _; rewrite lez_nat => an.
  case: q q0 qn => [[|b]|] // _; rewrite lez_nat => bn pq.
  rewrite /recombine_row /= /getitem /= !predz /setitem size_nseq.
  rewrite py_index_lt //= size_set_nth size_nseq (maxn_idPr _) // bn /=.
  eexists; first by [].
  split=> [|j]; first by rewrite !size_set_nth size_nseq !(maxn_idPr _).
  have ab : a != b by apply: contra pq => /eqP ->.
  rewrite nth_set_nth /=; case: (eqVneq j b) => [->|_].
    by rewrite eq_sym (negPf ab).
  by rewrite nth_set_nth /= nth_nseq if_same subr0; case: eqP.
Qed.

Lemma mapM_exists {A B : Type} (P : A -> B -> Prop) (f : A -> result B)
    (p : pred A) (s : seq A) :
  (forall a, p a -> exists2 b, f a = Ok b & P a b) -> all p s ->
  exists2 bs, mapM f s = Ok bs
            & size bs = size s /\
              forall a0 b0 i, (i < size s)%N -> P (nth a0 s i) (nth b0 bs i).
Proof.
move=> fP; elim: s => [|a s IH] /=; first by exists [::].
case/andP=> /fP[b fa Pab] /IH[bs bsE [sz nth_bs]].
exists (b :: bs); first by rewrite fa /= bsE.
split; first by rewrite /= sz.
by move=> a0 b0 [|i] //= lt_i; apply: nth_bs.
Qed.

Lemma recombine_valid self (portsets : seq portset) :
  pm_type self = TYPE_Z -> pm_z0 self = None ->
  (0 < size portsets)%N -> all (valid_portset n) portsets ->
  let M := transform_matrix C n portsets in
  recombine self portsets
  = Ok (mkNPortMatrix (M *m pm_array self *m M^T) TYPE_Z None).
Proof.
move=> tZ zN sz_p /(mapM_exists recombine_row_valid)[rows rowsE [sz nth_rows]] M.
rewrite /recombine tZ zN /= rowsE /=.
have -> /= : (rows == [::]) = false.
  by apply/negbTE; rewrite -size_eq0 sz -lt0n.
suff -> : np_matrix C (matrix_rows portsets) n rows = M by [].
apply/matrixP=> i j; rewrite !mxE.
have lt_i : (i < size portsets)%N.
  by case: portsets sz_p i {M rowsE sz nth_rows} => //= ? ? _ i.
by have [_ ->] := nth_rows (PortInt 0) [::] i lt_i.
Qed.

End Recombine.

Lemma recombine_pair_example (C : numClosedFieldType) (z : 'M[C]_2) :
  recombine (mkNPortMatrix z TYPE_Z None) [:: PortTuple [:: 1%:Z; 2%:Z]]
  = Ok (mkNPortMatrix
          (const_mx (z ord0 ord0 - z ord0 ord_max
                     - z ord_max ord0 + z ord_max ord_max))
          TYPE_Z None).
Proof.
rewrite recombine_valid //; congr (Ok (mkNPortMatrix _ _ _)).
apply/matrixP=> i j; rewrite !ord1 !mxE !big_ord_recl !big_ord0 !mxE.
rewrite !big_ord_recl !big_ord0 !mxE /=.
have -> : lift ord0 ord0 = ord_max :> 'I_2 by apply: val_inj.
rewrite subr0 sub0r rmorphN /= !mulr1z.
by ring.
Qed.

Section RecombineSpec.

Variable C : numClosedFieldType.
Variable n : nat.
Implicit Types self : NPortMatrix C n.

(** C6: on a Z-typed n-port NPortMatrix and a non-empty list of valid
    entries, recombine returns [M Z M^T] with the type and the impedance
    unchanged, where [M] has, in the row of a signed port number, a single
    +1 or -1 in the column of that port and, in the row of a pair [(p, q)],
    +1 at column [p] and -1 at column [q]; on a 2-port matrix, the pair
    [(1, 2)] gives the 1-by-1 matrix [z11 - z12 - z21 + z22]. *)
Theorem recombine_spec self (portsets : seq portset) :
  pm_type self = TYPE_Z -> pm_z0 self = None ->
  (0 < size portsets)%N -> all (valid_portset n) portsets ->
  let M := transform_matrix C n portsets in
  recombine self portsets
  = Ok (mkNPortMatrix (M *m pm_array self *m M^T) TYPE_Z None)
  /\ forall z : 'M[C]_2,
       recombine (mkNPortMatrix z TYPE_Z None) [:: PortTuple [:: 1%:Z; 2%:Z]]
       = Ok (mkNPortMatrix
               (const_mx (z ord0 ord0 - z ord0 ord_max
                          - z ord_max ord0 + z ord_max ord_max))
               TYPE_Z None).
Proof.
move=> tZ zN sz_p val M; split; first exact: recombine_valid.
exact: recombine_pair_example.
Qed.

End RecombineSpec.

(** ** Port numbers out of range in recombine *)

Section RecombineRange.

Variable C : numClosedFieldType.

Lemma recombine_row_zero n : recombine_row n (PortInt 0) = Raise AssertionError.
Proof. by []. Qed.

Lemma py_index_beyond n k :
  (n <= k)%N -> py_index n (Posz k) = Raise (IndexError "index out of range").
Proof. by rewrite /py_index ltnNge => ->. Qed.

(** A signed port number beyond the number of ports. *)
Lemma recombine_row_int_beyond n (p : int) :
  (n < `|p|)%N -> recombine_row n (PortInt p) = Raise (IndexError port_msg).
Proof.
case: p => [[|k]|k] //=; rewrite ltnS => nk; rewrite /recombine_row /=.
  by rewrite predz /setitem size_nseq py_index_beyond.
by rewrite NegzE opprK predz /setitem size_nseq py_index_beyond.
Qed.

(** A pair whose first port is beyond the number of ports. *)
Lemma recombine_row_pair_beyond n (p q : int) :
  Posz n < p -> recombine_row n (PortTuple [:: p; q]) = Raise (IndexError port_msg).
Proof.
case: p => [[|k]|k] //; rewrite ltz_nat ltnS => nk.
by rewrite /recombine_row /= /getitem /= predz /setitem size_nseq py_index_beyond.
Qed.

Lemma mapM_raises {A B : Type} (f : A -> result B) (s : seq A) :
  has (fun a => ~~ is_ok (f a)) s -> ~~ is_ok (mapM f s).
Proof.
elim: s => [|a s IH] //=; case: (f a) => [b|e] //=.
by move=> /IH; case: (mapM f s).
Qed.

Lemma recombine_raises n (self : NPortMatrix C n) (portsets : seq portset) :
  has (fun ports => ~~ is_ok (recombine_row n ports)) portsets ->
  ~~ is_ok (recombine self portsets).
Proof.
move=> /mapM_raises; rewrite /recombine; case: (assert _) => //= _.
by case: (mapM _ _).
Qed.

(** In a pair, the port number 0 designates the last port: the rows built
    for [(0, 1)] and for [(2, 1)] on a 2-port are the same. *)
Lemma recombine_row_pair_zero :
  recombine_row 2 (PortTuple [:: 0; 1])
  = recombine_row 2 (PortTuple [:: 2%:Z; 1]).
Proof. by []. Qed.

(** C8, on the code: on a 2-port Z-typed matrix, the pair [(0, 1)] raises
    nothing; recombine returns the 1-by-1 matrix [z22 - z21 - z12 + z11],
    what it returns for the pair [(2, 1)]. *)
Theorem recombine_pair_zero (z : 'M[C]_2) :
  recombine (mkNPortMatrix z TYPE_Z None) [:: PortTuple [:: 0; 1]]
  = Ok (mkNPortMatrix
          (const_mx (z ord_max ord_max - z ord_max ord0
                     - z ord0 ord_max + z ord0 ord0))
          TYPE_Z None).
Proof.
have -> : recombine (mkNPortMatrix z TYPE_Z None) [:: PortTuple [:: 0; 1]]
          = recombine (mkNPortMatrix z TYPE_Z None)
                      [:: PortTuple [:: 2%:Z; 1]].
  rewrite /recombine.
  have -> // : mapM (recombine_row 2) [:: PortTuple [:: 0; 1]]
               = mapM (recombine_row 2) [:: PortTuple [:: 2%:Z; 1]].
  by [].
rewrite recombine_valid //; congr (Ok (mkNPortMatrix _ _ _)).
apply/matrixP=> i j; rewrite !ord1 !mxE !big_ord_recl !big_ord0 !mxE.
rewrite !big_ord_recl !big_ord0 !mxE /=.
have -> : lift ord0 ord0 = ord_max :> 'I_2 by apply: val_inj.
rewrite subr0 sub0r rmorphN /= !mulr1z.
by ring.
Qed.

End RecombineRange.

(** ** Partition into a 2n-port *)

Section PortSets.

Implicit Types (s inp outp : seq int) (x lo hi : int).

Lemma foldl_min_le x s :
  foldl Order.min x s <= x /\ {in s, forall y, foldl Order.min x s <= y}.
Proof.
elim: s x => [|z s IH] x /=; first by split.
have [le_m in_m] := IH (Order.min x z); split.
  by apply: le_trans le_m _; rewrite ge_min lexx.
move=> y; rewrite inE => /orP[/eqP->|/in_m //].
by apply: le_trans le_m _; rewrite ge_min lexx orbT.
Qed.

Lemma foldl_max_ge x s :
  x <= foldl Order.max x s /\ {in s, forall y, y <= foldl Order.max x s}.
Proof.
elim: s x => [|z s IH] x /=; first by split.
have [le_m in_m] := IH (Order.max x z); split.
  by apply: le_trans le_m; rewrite le_max lexx.
move=> y; rewrite inE => /orP[/eqP->|/in_m //].
by apply: le_trans le_m; rewrite le_max lexx orbT.
Qed.

Lemma py_min_le s lo : py_min s = Ok lo -> {in s, forall y, lo <= y}.
Proof.
case: s => //= x s [<-] y; have [le_x in_s] := foldl_min_le x s.
by rewrite inE => /orP[/eqP->|/in_s].
Qed.

Lemma py_max_ge s hi : py_max s = Ok hi -> {in s, forall y, y <= hi}.
Proof.
case: s => //= x s [<-] y; have [le_x in_s] := foldl_max_ge x s.
by rewrite inE => /orP[/eqP->|/in_s].
Qed.

Lemma mem_all_ports m x : (x \in all_ports m) = (1 <= x) && (x <= Posz m).
Proof.
apply/mapP/andP => [[k]|[]].
  by rewrite mem_iota add0n /= => km ->.
case: x => [[|k]|k] // _; rewrite lez_nat => km.
by exists k => //; rewrite mem_iota.
Qed.

Lemma all_ports_uniq m : uniq (all_ports m).
Proof.
rewrite map_inj_uniq ?iota_uniq // => i j [].
by [].
Qed.

(** What the assertions of [twonportmatrix] establish. *)
Lemma validated n inp outp :
  size inp = n -> size outp = n ->
  size (undup (inp ++ outp)) = (2 * n)%N ->
  py_min (undup (inp ++ outp)) = Ok 1 ->
  py_max (undup (inp ++ outp)) = Ok (Posz (2 * n)) ->
  ~~ overlap inp outp /\ covers_exactly (2 * n) inp outp.
Proof.
move=> si so su /py_min_le lo_s /py_max_ge hi_s.
have sz : size (inp ++ outp) = (2 * n)%N by rewrite size_cat si so mul2n addnn.
have us : uniq (inp ++ outp).
  by apply: contraTT (leqnn (2 * n)) => nu; rewrite -ltnNge -{1}su -sz ltn_size_undup.
split; first by move: us; rewrite cat_uniq => /and3P[].
have sub : {subset inp ++ outp <= all_ports (2 * n)}.
  move=> x xs; rewrite mem_all_ports lo_s ?hi_s ?mem_undup //.
have le_sz : (size (all_ports (2 * n)) <= size (inp ++ outp))%N.
  by rewrite size_map size_iota sz.
have [_ eq_s] := uniq_min_size us sub le_sz.
rewrite /covers_exactly; apply/andP; split; apply/allP => x /=.
  by rewrite eq_s.
by rewrite -eq_s.
Qed.

End PortSets.

Section Shuffle.

Variable C : numClosedFieldType.

Lemma item_ord p q (a : 'M[C]_(p, q)) (i : 'I_p) (j : 'I_q) :
  item a i j = a i j.
Proof. by rewrite /item !valK. Qed.

Lemma item_out p q (a : 'M[C]_(p, q)) (i j : nat) :
  (p <= i)%N || (q <= j)%N -> item a i j = 0.
Proof.
rewrite /item; case: insubP => [i' _ <-|//]; case: insubP => [j' _ <-|//].
by rewrite [(p <= _)%N]leqNgt [(q <= _)%N]leqNgt !ltn_ord.
Qed.

Lemma mapM_ok_in {A : eqType} {B : Type} (f : A -> result B) (g : A -> B)
    (s : seq A) :
  {in s, forall a, f a = Ok (g a)} -> mapM f s = Ok [seq g a | a <- s].
Proof.
elim: s => [|a s IH] //= fg; rewrite fg ?mem_head //= IH // => x xs.
by apply: fg; rewrite inE xs orbT.
Qed.

(** The rows of an array with [p] rows, taken in their order. *)
Lemma getrows p q (a : 'M[C]_(p, q)) :
  mapM (getrow a) [seq Posz k | k <- iota 0 p]
  = Ok [seq \row_(j < q) item a `|k| j | k <- [seq Posz k | k <- iota 0 p]].
Proof.
apply: mapM_ok_in => k /mapP[i]; rewrite mem_iota add0n /= => lt_i ->.
by rewrite /getrow /py_index lt_i.
Qed.

Lemma nth_rows p q (a : 'M[C]_(p, q)) (i : nat) :
  (i < p)%N ->
  nth 0 [seq \row_(j < q) item a `|k| j | k <- [seq Posz k | k <- iota 0 p]] i
  = \row_(j < q) item a i j.
Proof.
move=> lt_i; rewrite (nth_map 0) ?size_map ?size_iota //.
by rewrite (nth_map 0%N) ?size_iota // nth_iota.
Qed.

(** Shuffling to the order [0 .. m-1] changes no entry. *)
Lemma shuffleE m (a : 'M[C]_m) (ports : seq int) rows rows2 :
  mapM (getrow a) ports = Ok rows ->
  mapM (getrow (asarray rows)^T) ports = Ok rows2 ->
  shuffle a ports
  = Ok (existT (fun pq : nat * nat => 'M[C]_(pq.1, pq.2))
               (size rows, size rows2) (asarray rows2)^T).
Proof. by rewrite /shuffle => -> /= ->. Qed.

Lemma item_lt p q (a : 'M[C]_(p, q)) (i j : nat)
    (lt_i : (i < p)%N) (lt_j : (j < q)%N) :
  item a i j = a (Ordinal lt_i) (Ordinal lt_j).
Proof. by rewrite -(item_ord a (Ordinal lt_i) (Ordinal lt_j)). Qed.

(** An array rebuilt from its rows, transposed. *)
Lemma item_asarray_rows p q (a : 'M[C]_(p, q)) (i j : nat) :
  let rows := [seq \row_(j < q) item a `|k| j
              | k <- [seq Posz k | k <- iota 0 p]] in
  item (asarray rows)^T j i = item a i j.
Proof.
move=> rows; have sr : size rows = p by rewrite !size_map size_iota.
case: (ltnP i p) => [lt_i|ge_i]; last first.
  by rewrite !item_out ?ge_i ?sr ?ge_i ?orbT.
case: (ltnP j q) => [lt_j|ge_j]; last first.
  by rewrite !item_out ?ge_j ?orbT.
have lt_i' : (i < size rows)%N by rewrite sr.
rewrite (item_lt _ lt_j lt_i') !mxE /= nth_rows // mxE.
by [].
Qed.

(** Shuffling to the order [0 .. m-1] changes no entry. *)
Lemma shuffle_id m (a : 'M[C]_m) :
  exists2 s, shuffle a [seq Posz k | k <- iota 0 m] = Ok s
           & forall i j, item (projT2 s) i j = item a i j.
Proof.
set ports := [seq Posz k | k <- iota 0 m].
pose rows := [seq \row_(j < m) item a `|k| j | k <- ports].
pose rows2 := [seq \row_(j < size rows) item (asarray rows)^T `|k| j
              | k <- ports].
exists (existT (fun pq : nat * nat => 'M[C]_(pq.1, pq.2))
               (size rows, size rows2) (asarray rows2)^T).
  by apply: shuffleE; apply: getrows.
move=> i j; rewrite [LHS]/=.
by rewrite (item_asarray_rows (asarray rows)^T j i) (item_asarray_rows a i j).
Qed.

Lemma quadrants_item n p q p' q' (a : 'M[C]_(p, q)) (b : 'M[C]_(p', q')) :
  (forall i j, item a i j = item b i j) -> quadrants n a = quadrants n b.
Proof.
move=> ab; rewrite /quadrants.
by do !congr pair; apply/matrixP => i j; rewrite !mxE.
Qed.

End Shuffle.

Section TwoNPortProperties.

Variable C : numClosedFieldType.
Variable TwoNPortMatrixT : nat -> Type.
Variable TwoNPortMatrix_new :
  forall n, 'M[C]_n * 'M[C]_n * 'M[C]_n * 'M[C]_n -> ptype -> option C ->
            result (TwoNPortMatrixT n).

Local Notation twonportmatrix := (twonportmatrix TwoNPortMatrix_new).

Lemma twonportmatrix_one_set m (self : NPortMatrix C m) (ports : seq int) :
  ~~ odd m ->
  twonportmatrix self (Some ports) None = Raise AssertionError
  /\ twonportmatrix self None (Some ports) = Raise AssertionError.
Proof. by rewrite /twonportmatrix => /negPf ->. Qed.

Lemma twonportmatrix_invalid m (self : NPortMatrix C m) (inp outp : seq int) :
  ~~ odd m ->
  [|| overlap inp outp, size inp != m./2, size outp != m./2
    | ~~ covers_exactly m inp outp] ->
  twonportmatrix self (Some inp) (Some outp) = Raise AssertionError.
Proof.
move=> ev inv; have m2 : (2 * m./2)%N = m.
  by rewrite mul2n -[RHS]odd_double_half (negPf ev).
rewrite /twonportmatrix (negPf ev); set n := m./2 in m2 inv *.
case: (eqVneq (size inp) n) => [si|_]; last by [].
case: (eqVneq (size outp) n) => [so|_]; last by [].
case: (eqVneq (size (undup (inp ++ outp))) (2 * n)%N) => [su|_]; last by [].
move: inv; rewrite si so !eqxx /= => inv.
case mE: (py_min _) => [lo|e] /=; last first.
  move: mE su; case: (undup _) => //= _ /esym/eqP.
  rewrite muln_eq0 /= => /eqP n0; move: inv si so m2; rewrite n0.
  by move=> + /size0nil si /size0nil so m0; rewrite si so -m0.
case: (eqVneq lo 1) => [lo1|_]; last by [].
case ME: (py_max _) => [hi|e] /=; last first.
  by move: mE ME; case: (undup _).
case: (eqVneq hi (Posz (2 * n))) => [hiE|_]; last by [].
rewrite lo1 in mE; rewrite hiE in ME.
have [no cov] := validated si so su mE ME.
by rewrite (negPf no) -m2 cov in inv.
Qed.

Lemma twonportmatrix_default m (self : NPortMatrix C m) :
  ~~ odd m ->
  twonportmatrix self None None
  = TwoNPortMatrix_new (quadrants m./2 (pm_array self))
                       (pm_type self) (pm_z0 self).
Proof. by rewrite /twonportmatrix => /negPf ->. Qed.

Lemma twonportmatrix_valid m (self : NPortMatrix C m) (inp outp : seq int) s :
  ~~ odd m -> size inp = m./2 -> size outp = m./2 ->
  size (undup (inp ++ outp)) = (2 * m./2)%N ->
  py_min (undup (inp ++ outp)) = Ok 1 ->
  py_max (undup (inp ++ outp)) = Ok (Posz (2 * m./2)) ->
  shuffle (pm_array self)
          ([seq port - 1 | port <- inp] ++ [seq port - 1 | port <- outp])
  = Ok s ->
  twonportmatrix self (Some inp) (Some outp)
  = TwoNPortMatrix_new (quadrants m./2 (projT2 s)) (pm_type self) (pm_z0 self).
Proof.
rewrite /twonportmatrix => /negPf -> -> -> -> -> -> ->.
by rewrite !eqxx /= !eqxx.
Qed.

Lemma twonportmatrix_4port (self : NPortMatrix C 4) :
  twonportmatrix self (Some [:: 1%:Z; 2%:Z]) (Some [:: 3%:Z; 4%:Z])
  = twonportmatrix self None None.
Proof.
have [s sE item_s] := shuffle_id (pm_array self).
rewrite twonportmatrix_default // (twonportmatrix_valid (s := s)) //.
by rewrite (quadrants_item 2 item_s).
Qed.

(** C7: on an NPortMatrix with an even number of ports, port sets that
    overlap, that have not half the ports each, or that do not cover the
    ports [1 .. 2n] exactly make [twonportmatrix] fail on an assertion; on
    a 4-port, the port sets [1,2] and [3,4] give what the call without
    arguments gives. *)
Theorem twonportmatrix_port_sets m (self : NPortMatrix C m)
    (inp outp : seq int) :
  ~~ odd m ->
  [|| overlap inp outp, size inp != m./2, size outp != m./2
    | ~~ covers_exactly m inp outp] ->
  twonportmatrix self (Some inp) (Some outp) = Raise AssertionError
  /\ forall self4 : NPortMatrix C 4,
       twonportmatrix self4 (Some [:: 1%:Z; 2%:Z]) (Some [:: 3%:Z; 4%:Z])
       = twonportmatrix self4 None None.
Proof.
move=> ev inv; split; first exact: twonportmatrix_invalid.
exact: twonportmatrix_4port.
Qed.

End TwoNPortProperties.

(** * Instances on algebraic complex numbers *)

(** C1 as first stated fails at the reference impedance 0: the 1-port
    Y-typed matrix [[1]] is converted to S (both matrices inverted on the way
    are invertible), and the conversion back to Y divides by 0. *)
Lemma convert_roundtrip_zero_impedance :
  let A : 'M[algC]_1 := 1%:M in
  let M := mkNPortMatrix A TYPE_Y None in
  let s := mkNPortMatrix A TYPE_S (Some 0) in
  [/\ NPortMatrix_new A TYPE_Y None = Ok M,
      1%:M + 0 *: A \in unitmx,
      convert M TYPE_S (Some 0) = Ok s,
      1%:M + pm_array s \in unitmx
    & (s <- convert M TYPE_S (Some 0) ;; convert s TYPE_Y None) <> Ok M].
Proof.
move=> A M s.
have u1 : 1%:M + 0 *: A \in unitmx by rewrite scale0r addr0 unitmx1.
have u2 : 1%:M + A \in unitmx.
  rewrite /A -mulr2n -(raddfMn (@scalar_mx algC 1)) unitmxE det_scalar expr1.
  by rewrite unitfE pnatr_eq0.
have cS : convert M TYPE_S (Some 0) = Ok s.
  rewrite /convert /= /idty (invert_unit u1) /= /s; congr (Ok (mkNPortMatrix _ _ _)).
  by rewrite scale0r addr0 invmx1 /A scaler_nat mulr2n addrK.
split=> //; rewrite cS /= /convert /= /idty (invert_unit u2) /=.
by rewrite /array_div eqxx.
Qed.

Lemma convert_roundtrip_witness :
  let M := mkNPortMatrix (0 : 'M[algC]_1) TYPE_Z None in
  (s <- convert M TYPE_S (Some 1) ;; convert s TYPE_Z None) = Ok M.
Proof.
move=> M.
have [rZ _] := @convert_roundtrip algC 1 0 1 (oner_neq0 _).
apply: rZ; first by [].
by rewrite scaler0 addr0 unitmx1.
Defined.

Lemma renormalize_spec_witness :
  let S0 := mkNPortMatrix (0 : 'M[algC]_1) TYPE_S (Some 50%:R) in
  renormalize S0 50%:R = Ok S0.
Proof.
move=> S0.
by have [] := @renormalize_spec algC 1 S0 50%:R (erefl _) (erefl _).
Defined.

Lemma NPort_convert_default_z0_witness :
  let ms := [:: (0 : 'M[algC]_1)] in
  NPort_convert (mkNPort [:: 1] ms TYPE_S (Some 75%:R)) TYPE_S None
  = Ok (mkNPort [:: 1] ms TYPE_S (Some 50%:R)).
Proof.
move=> ms.
have z75 : (75%:R : algC) != 50%:R by rewrite eqr_nat.
by have [] := @NPort_convert_default_z0 algC 1 [:: 1] ms 75%:R _ (erefl _) z75.
Defined.

Lemma recombine_spec_witness :
  let self := mkNPortMatrix (0 : 'M[algC]_2) TYPE_Z None in
  let portsets := [:: PortTuple [:: 1%:Z; 2%:Z]] in
  recombine self portsets
  = Ok (mkNPortMatrix
          (transform_matrix algC 2 portsets *m 0
           *m (transform_matrix algC 2 portsets)^T) TYPE_Z None).
Proof.
move=> self portsets.
by have [] := @recombine_spec algC 2 self portsets (erefl _) (erefl _)
                (erefl _) (erefl _).
Defined.

Lemma twonportmatrix_port_sets_witness :
  let mk := fun n (x : 'M[algC]_n * 'M[algC]_n * 'M[algC]_n * 'M[algC]_n)
                (t : ptype) (z : option algC) => Ok (x, t, z) in
  twonportmatrix mk (mkNPortMatrix (0 : 'M[algC]_2) TYPE_Z None)
                 (Some [:: 1%:Z]) (Some [:: 1%:Z])
  = Raise AssertionError.
Proof.
move=> mk.
by have [] := twonportmatrix_port_sets mk
                (mkNPortMatrix (0 : 'M[algC]_2) TYPE_Z None)
                (inp := [:: 1%:Z]) (outp := [:: 1%:Z]) (erefl _) (erefl _).
Defined.

(** * Further properties *)

(** ** Conversions between Z, Y and S *)

Section ConvertProperties.

Variable C : numClosedFieldType.
Variable n : nat.
Implicit Types (A : 'M[C]_n) (self r : NPortMatrix C n) (z : C) (t : ptype).

(** X1: an invertible matrix built as a Z-typed NPortMatrix and converted to
    Y and back to Z is returned unchanged, and so is a Y-typed one converted
    to Z and back. *)
Theorem convert_roundtrip_inverse A :
  A \in unitmx ->
  (forall M, NPortMatrix_new A TYPE_Z None = Ok M ->
     (y <- convert M TYPE_Y None ;; convert y TYPE_Z None) = Ok M)
  /\
  (forall M, NPortMatrix_new A TYPE_Y None = Ok M ->
     (x <- convert M TYPE_Z None ;; convert x TYPE_Y None) = Ok M).
Proof.
move=> uA; have uV : invmx A \in unitmx by rewrite unitmx_inv.
by split=> M [<-]; rewrite /convert /= !invert_unit //= invert_unit //= invmxK.
Qed.

(** X2: a matrix built as an S-typed NPortMatrix of nonzero reference
    impedance [z] and converted to Z and back to S at [z] is returned
    unchanged when [1 - A] is invertible; converted to Y and back when
    [1 + A] is. *)
Theorem convert_roundtrip_scattering A z :
  z != 0 ->
  (forall M, NPortMatrix_new A TYPE_S (Some z) = Ok M ->
     1%:M - A \in unitmx ->
     (x <- convert M TYPE_Z None ;; convert x TYPE_S (Some z)) = Ok M)
  /\
  (forall M, NPortMatrix_new A TYPE_S (Some z) = Ok M ->
     1%:M + A \in unitmx ->
     (y <- convert M TYPE_Y None ;; convert y TYPE_S (Some z)) = Ok M).
Proof.
move=> zN; split=> M [<-] uB; have [uS eS] := double_inverse uB.
  rewrite /convert /idty /= invert_unit //= array_div_neq0 //=.
  rewrite scalerA mulVf // scale1r addrCA subrr addr0 invert_unit //=.
  congr (Ok (mkNPortMatrix _ _ _)).
  by rewrite -[2%:R *: invmx _](subrK 1%:M) eS subrK opprB addrCA subrr addr0.
rewrite /convert /idty /= invert_unit //= array_div_neq0 //=.
rewrite scalerA divff // scale1r addrCA subrr addr0 invert_unit //=.
congr (Ok (mkNPortMatrix _ _ _)).
by rewrite eS addrAC subrr add0r.
Qed.

Lemma convert_okP self t (z0 : option C) :
  is_ok (convert self t z0) ->
  (pm_type self \in [:: TYPE_Z; TYPE_Y; TYPE_S])
  && (t \in [:: TYPE_Z; TYPE_Y; TYPE_S]).
Proof.
rewrite /convert; case: (convert_z0test _ _ _) => //= z0'.
by case: t => //=; case: (pm_type self).
Qed.

(** X3: [convert] returns only between the types Z, Y and S: with a source
    or a target type among T, H, G and ABCD it raises, whatever the matrix
    and the [z0] argument. *)
Theorem convert_supported self t (z0 : option C) :
  is_ok (convert self t z0) ->
  (pm_type self \in [:: TYPE_Z; TYPE_Y; TYPE_S])
  && (t \in [:: TYPE_Z; TYPE_Y; TYPE_S]).
Proof. exact: convert_okP. Qed.

Lemma z0test_Some t z (z' : option C) :
  z0test t (Some z) = Ok z' -> z' = Some z.
Proof. by rewrite /z0test; case: ifP => // _ [<-]. Qed.

Lemma convert_z0test_Some self t z (z' : option C) :
  convert_z0test self t (Some z) = Ok z' -> z' = Some z.
Proof. by rewrite /convert_z0test; case: ifP => // _ [<-]. Qed.

(** What the constructor leaves in the matrix it returns. *)
Lemma NPortMatrix_new_tagged A t (z0 : option C) r :
  NPortMatrix_new A t z0 = Ok r ->
  [/\ pm_array r = A, pm_type r = t,
      isSome (pm_z0 r) = (t \in [:: TYPE_S; TYPE_T])
    & forall z, z0 = Some z -> pm_z0 r = Some z].
Proof.
rewrite /NPortMatrix_new; case zE: (z0test t z0) => [z'|] //= [<-] /=.
split=> // [|z e]; last by move: zE; rewrite e => /z0test_Some.
by move: zE; rewrite /z0test; case: ifP => _; case: (z0) => [v|] // [<-].
Qed.

(** X4: whatever the tags of the matrix given, the matrix [convert] returns
    carries the target type and an impedance as the constructor allows it
    for that type (one for S, none for Z and Y), which is the [z0] argument
    when one is given. *)
Theorem convert_tagged self t (z0 : option C) r :
  convert self t z0 = Ok r ->
  [/\ pm_type r = t, isSome (pm_z0 r) = (t == TYPE_S)
    & forall z, z0 = Some z -> pm_z0 r = Some z].
Proof.
move=> cE; have /andP[_ tOK] : _ := convert_okP (introT idP (congr1 is_ok cE)).
have eS : (t == TYPE_S) = (t \in [:: TYPE_S; TYPE_T]) by case: (t) tOK.
move: cE; rewrite /convert eS.
case zE: (convert_z0test _ _ _) => [z0'|] //=.
have given z : z0 = Some z -> z0' = Some z.
  by move=> e; move: zE; rewrite e => /convert_z0test_Some.
have tagged A : NPortMatrix_new A t z0' = Ok r ->
  [/\ pm_type r = t, isSome (pm_z0 r) = (t \in [:: TYPE_S; TYPE_T])
    & forall z, z0 = Some z -> pm_z0 r = Some z].
  case/NPortMatrix_new_tagged=> _ tE sE gE; split=> // z /given.
  exact: gE.
case: ifP => // _; case: ifP => // _.
case sE: (pm_type self) => //=; case tE: t tagged => //= tagged;
  try exact: tagged;
  try by [do ?[case: (invert _) => //= ?]; do ?[case: (number _) => //= ?];
          do ?[case: (array_div _ _) => //= ?];
          do ?[case: (invert _) => //= ?]; exact: tagged].
case: ifP => _; first exact: tagged.
case z0'E: z0' given => [z1|] //= given /renormalize_tagged[tE' zE'].
by rewrite tE' zE'; split=> // z /given [<-].
Qed.

(** The reflection coefficient of the way back, and what is left of [1 - r^2]. *)
Lemma renormalize_coefficients (z0 z1 : C) :
  z0 != 0 -> z1 != 0 -> z1 + z0 != 0 ->
  let r := (z1 - z0) / (z1 + z0) in
  (z0 - z1) / (z0 + z1) = - r /\ 1 - r ^+ 2 != 0.
Proof.
move=> z0N z1N sN r; split; first by rewrite /r [z0 + z1]addrC -mulNr opprB.
have -> : 1 - r ^+ 2 = 4%:R * z0 * z1 / (z1 + z0) ^+ 2 by rewrite /r; field.
by rewrite !mulf_neq0 ?invr_eq0 ?expf_neq0 // pnatr_eq0.
Qed.

(** The matrices of the way back, for [S1 = (A - r) (1 - r A)^-1]. *)
Lemma renormalize_back A (r : C) :
  let U := 1%:M - r *: A in
  let S1 := (A - r *: 1%:M) *m invmx U in
  U \in unitmx ->
  1%:M + r *: S1 = (1 - r ^+ 2) *: invmx U
  /\ S1 + r *: 1%:M = (1 - r ^+ 2) *: (A *m invmx U).
Proof.
move=> U S1 uU; split.
  rewrite -[1%:M in LHS](mulmxV uU) /S1 scalemxAl -mulmxDl.
  rewrite -[RHS]mul_scalar_mx; congr (_ *m _).
  rewrite /U scalerBr addrA subrK scalerA -expr2.
  by rewrite -[RHS]scalemx1 scalerBl scale1r.
rewrite -[r *: 1%:M in LHS](mulmxK uU) /S1 -mulmxDl [RHS]scalemxAl.
congr (_ *m _).
rewrite -scalemxAl mul1mx /U scalerBr addrA subrK scalerA -expr2.
by rewrite scalerBl scale1r.
Qed.

(** X5: an S-typed matrix renormalized from its impedance [z0] to [z1] and
    back to [z0] is returned unchanged, for nonzero impedances of nonzero
    sum and [1 - r A] invertible, [r = (z1 - z0) / (z1 + z0)]. *)
Theorem renormalize_roundtrip self (z0 z1 : C) :
  pm_type self = TYPE_S -> pm_z0 self = Some z0 ->
  z0 != 0 -> z1 != 0 -> z1 + z0 != 0 ->
  1%:M - ((z1 - z0) / (z1 + z0)) *: pm_array self \in unitmx ->
  (s1 <- renormalize self z1 ;; renormalize s1 z0) = Ok self.
Proof.
case: self => A t z /= -> -> z0N z1N sN uU.
have [->|ne] := eqVneq z1 z0.
  by rewrite renormalize_same //= renormalize_same.
have [rE r2N] := renormalize_coefficients z0N z1N sN.
have [e1 e2] := renormalize_back uU.
set r := (z1 - z0) / (z1 + z0) in rE r2N e1 e2 uU.
rewrite (@renormalize_other _ _ _ z0 z1) //= /renormalize /= -/r.
have /negPf-> : Some z0 != Some z1 by apply: contra ne => /eqP[->].
have sN' : z0 + z1 != 0 by rewrite addrC.
rewrite py_div_neq0 //= rE /idty scaleNr opprK e1.
have uV : (1 - r ^+ 2) *: invmx (1%:M - r *: A) \in unitmx.
  by rewrite unitmxZ ?unitfE // unitmx_inv.
rewrite invert_unit //= scaleNr opprK e2 invmxZ // invmxK.
congr (Ok (mkNPortMatrix _ _ _)).
rewrite -scalemxAl -scalemxAr scalerA mulfV // scale1r.
by rewrite mulmxKV.
Qed.

End ConvertProperties.

(** ** Sub-networks and passivity of an NPortMatrix *)

Section MatrixMethodProperties.

Variable C : numClosedFieldType.
Variable n : nat.
Implicit Types (self : NPortMatrix C n) (ports : seq int).

Lemma NPortMatrix_newP (A : 'M[C]_n) t (z0 : option C) r :
  NPortMatrix_new A t z0 = Ok r ->
  [/\ pm_array r = A, pm_type r = t & z0test t z0 = Ok (pm_z0 r)].
Proof. by rewrite /NPortMatrix_new; case: (z0test t z0) => //= z [<-]. Qed.

(** The tags of a matrix built by the constructor pass the constructor
    again. *)
Lemma NPortMatrix_new_again m (A : 'M[C]_n) t (z0 : option C) self
    (B : 'M[C]_m) :
  NPortMatrix_new A t z0 = Ok self ->
  NPortMatrix_new B (pm_type self) (pm_z0 self)
  = Ok (mkNPortMatrix B (pm_type self) (pm_z0 self)).
Proof.
by case/NPortMatrix_newP=> _ -> /z0test_idem zE; rewrite /NPortMatrix_new zE.
Qed.

Lemma py_index_port (p : int) :
  valid_port n p -> py_index n (p - 1) = Ok `|p|.-1.
Proof.
case: p => [[|k]|k] // /andP[_]; rewrite lez_nat => kn.
by rewrite predz /py_index kn.
Qed.

Lemma py_index_ports ports :
  all (valid_port n) ports ->
  mapM (py_index n) [seq port - 1 | port <- ports]
  = Ok [seq `|port|.-1 | port <- ports].
Proof.
elim: ports => [|p ports IH] //= /andP[vp /IH ->].
by rewrite py_index_port.
Qed.

Lemma py_index_raises (k : int) e :
  py_index n k = Raise e -> e = IndexError "index out of range".
Proof. by case: k => k /=; case: ifP => // _ [<-]. Qed.

Lemma mapM_py_index_raises (s : seq int) :
  has (fun k => ~~ is_ok (py_index n k)) s ->
  mapM (py_index n) s = Raise (IndexError "index out of range").
Proof.
elim: s => [|k s IH] //=; case kE: (py_index n k) => [i|e] /=.
  by move=> /IH ->.
by rewrite (py_index_raises kE).
Qed.

(** X6: on a matrix built by the constructor, [submatrix] with port numbers
    in [1 .. n] returns the matrix of the entries at the rows and columns of
    these ports, in the order given, with the type and the impedance
    unchanged; a port number above [n] raises IndexError. *)
Theorem submatrix_entries (A : 'M[C]_n) (t : ptype) (z0 : option C) self
    ports :
  NPortMatrix_new A t z0 = Ok self ->
  (all (valid_port n) ports ->
   exists2 r, submatrix self ports = Ok r
            & [/\ pm_type r = pm_type self, pm_z0 r = pm_z0 self
                & forall i j : 'I_(size ports),
                    pm_array r i j
                    = item A `|nth 0 ports i|.-1 `|nth 0 ports j|.-1])
  /\ (has (fun p => Posz n < p) ports ->
      submatrix self ports = Raise (IndexError "index out of range")).
Proof.
move=> built; have [aE _ _] := NPortMatrix_newP built.
split=> [vp|beyond]; rewrite /submatrix.
  rewrite py_index_ports // /bind (NPortMatrix_new_again _ built).
  eexists; first by [].
  by split=> // i j; rewrite mxE aE !(nth_map 0).
rewrite mapM_py_index_raises // has_map; apply: sub_has beyond => p /=.
case: p => [[|k]|k] //; rewrite ltz_nat predz /= => nk.
by rewrite ltnNge -ltnS nk.
Qed.

Lemma foldl_max_gt (x : C) (s : seq C) :
  x \is Num.real -> all (fun y => y \is Num.real) s ->
  (1 < foldl Num.max x s) = has (fun y => 1 < y) (x :: s).
Proof.
elim: s x => [|y s IH] x xR /=; first by rewrite orbF.
case/andP=> yR sR; rewrite IH ?max_real //=.
by rewrite comparable_lt_max ?real_comparable // orbA.
Qed.

Lemma row_sum_real (a : 'M[C]_n) (i : 'I_n) :
  \sum_j `|a i j| ^+ 2 \is Num.real.
Proof. by apply/ger0_real/sumr_ge0 => j _; rewrite exprn_ge0. Qed.

Lemma ispassive_scatteringE self :
  (0 < n)%N ->
  ispassive_scattering self
  = Ok [forall i, \sum_j `|pm_array self i j| ^+ 2 <= 1].
Proof.
move=> n0; rewrite /ispassive_scattering /row_sums.
case eE: (enum 'I_n) => [|i0 e].
  by have := size_enum_ord n; rewrite eE /= => e0; rewrite -e0 in n0.
have allR : all (fun y : C => y \is Num.real)
                [seq \sum_j `|pm_array self i j| ^+ 2 | i <- e].
  by apply/allP => y /mapP[i _ ->]; apply: row_sum_real.
rewrite /= foldl_max_gt ?row_sum_real //.
rewrite -(map_cons (fun i => \sum_j `|pm_array self i j| ^+ 2)) -eE.
rewrite has_map; case: hasP => [[i _ /= gt1]|no].
  congr Ok; apply/esym/negbTE/negP => /forallP/(_ i).
  by rewrite real_leNgt ?row_sum_real ?real1 // gt1.
congr Ok; apply/esym/forallP => i; rewrite real_leNgt ?row_sum_real ?real1 //.
by apply/negP => gt1; apply: no; exists i => //; rewrite mem_enum.
Qed.

(** X7: a scattering matrix with at least one port is passive exactly when
    in every row the squared magnitudes of the entries sum to at most 1;
    on a matrix without ports [ispassive] raises ValueError. *)
Theorem ispassive_rows self :
  pm_type self = TYPE_S ->
  ((0 < n)%N ->
   ispassive self = Ok [forall i, \sum_j `|pm_array self i j| ^+ 2 <= 1])
  /\ (n = 0%N -> ~~ is_ok (ispassive self)).
Proof.
move=> tS; rewrite /ispassive tS /=; split; first exact: ispassive_scatteringE.
move=> n0; rewrite /ispassive_scattering /row_sums.
by have /size0nil-> : size (enum 'I_n) = 0%N by rewrite size_enum_ord.
Qed.

End MatrixMethodProperties.

(** ** Interpolation along the frequencies *)

Section InterpolationProperties.
Variable C : numClosedFieldType.
Variable n : nat.
Implicit Types (self : NPort C n) (fs : seq rat) (x f : rat).
Implicit Types ms : seq 'M[C]_n.

Lemma searchsortedE fs x j :
  sorted <%R fs -> (j < size fs)%N ->
  (forall i, (i < j)%N -> nth 0 fs i < x) -> x <= nth 0 fs j ->
  searchsorted fs x = j.
Proof.
move=> sf lt_j below le_j; rewrite /searchsorted.
have has_x : has (fun y => x <= y) fs.
  by apply/hasP; exists (nth 0 fs j); rewrite ?mem_nth.
apply/eqP; rewrite eqn_leq; apply/andP; split.
  rewrite leqNgt; apply/negP => /(before_find 0).
  by rewrite le_j.
rewrite leqNgt; apply/negP => lt_f.
by have := nth_find 0 has_x; rewrite leNgt below.
Qed.

Lemma call_linear_segment fs ms x k :
  sorted <%R fs -> (k.+1 < size fs)%N ->
  nth 0 fs k <= x <= nth 0 fs k.+1 ->
  call_linear fs ms x
  = Ok (nth 0 ms k
        + ratr ((x - nth 0 fs k) / (nth 0 fs k.+1 - nth 0 fs k))
          *: (nth 0 ms k.+1 - nth 0 ms k) : 'M[C]_n).
Proof.
move=> sf lt_k /andP[]; rewrite le_eqVlt => /orP[/eqP xE|gt_k] le_k1.
  have lt_k0 : (k < size fs)%N by apply: ltn_trans lt_k.
  have ssE : searchsorted fs x = k.
    apply: searchsortedE; rewrite -?xE // => i lt_i.
    by rewrite (lt_sorted_ltn_nth 0 sf) ?inE // (ltn_trans lt_i).
  have le_p : (k <= (size fs).-1)%N by rewrite -ltnS prednK // (leq_trans _ lt_k0).
  have sz2 : (1 < size fs)%N by apply: leq_ltn_trans lt_k.
  have lt_1 : (1 <= (size fs).-1)%N by rewrite -ltnS prednK // (ltn_trans _ sz2).
  rewrite /call_linear ssE /clip -xE subrr mul0r rmorph0 scale0r addr0.
  case: k xE lt_k lt_k0 ssE le_p {le_k1} => [|k'] xE lt_k lt_k0 ssE le_p.
    have dN : nth 0 fs 1 - nth 0 fs 0 != 0.
      by rewrite subr_eq0 gt_eqF // (lt_sorted_ltn_nth 0 sf) ?inE.
    rewrite /= (minn_idPl lt_1) /= array_div_neq0 ?fmorph_eq0 //=.
    by rewrite subrr rmorph0 scale0r add0r.
  rewrite (maxn_idPl _) // (minn_idPl le_p) /=.
  have dN : nth 0 fs k'.+1 - nth 0 fs k' != 0.
    by rewrite subr_eq0 gt_eqF // (lt_sorted_ltn_nth 0 sf) ?inE // ltnW.
  rewrite array_div_neq0 ?fmorph_eq0 //= scalerA mulfV ?fmorph_eq0 //.
  by rewrite scale1r subrK.
have ssE : searchsorted fs x = k.+1.
  apply: searchsortedE => // i; rewrite ltnS leq_eqVlt => /orP[/eqP->//|lt_i].
  apply: lt_trans gt_k; rewrite (lt_sorted_ltn_nth 0 sf) ?inE //.
    exact: ltn_trans (ltn_trans lt_i _) lt_k.
  exact: ltn_trans lt_k.
have le_p : (k.+1 <= (size fs).-1)%N.
  by rewrite -ltnS prednK // (ltn_trans _ lt_k).
rewrite /call_linear ssE /clip /= (maxn_idPl _) // (minn_idPl le_p).
have dN : nth 0 fs k.+1 - nth 0 fs k != 0.
  by rewrite subr_eq0 gt_eqF // (lt_sorted_ltn_nth 0 sf) ?inE // ltnW.
rewrite array_div_neq0 ?fmorph_eq0 //= addrC scalerA -fmorphV -rmorphM.
by [].
Qed.

Lemma sorted_head_le fs k :
  sorted <%R fs -> (k < size fs)%N -> head 0 fs <= nth 0 fs k.
Proof.
move=> sf lt_k; rewrite -nth0 (lt_sorted_leq_nth 0 sf) ?inE //.
exact: leq_ltn_trans lt_k.
Qed.

Lemma sorted_le_last fs k :
  sorted <%R fs -> (k < size fs)%N -> nth 0 fs k <= last 0 fs.
Proof.
move=> sf lt_k; have s0 : (0 < size fs)%N by apply: leq_ltn_trans lt_k.
have lt_p : ((size fs).-1 < size fs)%N by rewrite prednK.
have le_p : (k <= (size fs).-1)%N by rewrite -ltnS prednK.
by rewrite -nth_last (lt_sorted_leq_nth 0 sf) ?inE.
Qed.

Lemma at_single_value fs ms (t : ptype) (z0 : option C) self x v :
  NPort_new fs ms t z0 = Ok self -> sorted <%R fs -> (1 < size fs)%N ->
  head 0 fs <= x <= last 0 fs -> call_linear fs ms x = Ok v ->
  at_single self x = Ok (mkNPortMatrix v t (np_z0 self)).
Proof.
move=> /NPort_newP[sz nz zE ->] sf sz2 in_r vE.
have zI := z0test_idem zE.
rewrite /at_single /at_ /= interp1d_in_range //= ?in_r // vE /=.
by rewrite /NPort_new /= zI /= /NPortMatrix_new zI.
Qed.

(** X8: between two consecutive sample frequencies [x_k <= x <= x_k+1] of a
    sweep built over strictly increasing frequencies, [at] returns the
    linear interpolation [y_k + ((x - x_k) / (x_k+1 - x_k)) (y_k+1 - y_k)]
    of the two samples, as an NPortMatrix of the type and impedance of the
    sweep. *)
Theorem at_interpolates fs ms (t : ptype) (z0 : option C) self k x :
  NPort_new fs ms t z0 = Ok self -> sorted <%R fs ->
  (k.+1 < size fs)%N -> nth 0 fs k <= x <= nth 0 fs k.+1 ->
  at_single self x
  = Ok (mkNPortMatrix
          (nth 0 ms k
           + ratr ((x - nth 0 fs k) / (nth 0 fs k.+1 - nth 0 fs k))
             *: (nth 0 ms k.+1 - nth 0 ms k))
          t (np_z0 self)).
Proof.
move=> built sf lt_k in_k; have /andP[ge_k le_k] := in_k.
apply: (at_single_value built) => //; last exact: call_linear_segment.
  exact: leq_ltn_trans lt_k.
rewrite (le_trans _ ge_k) ?(le_trans le_k) ?sorted_le_last ?sorted_head_le //.
exact: ltn_trans lt_k.
Qed.

Lemma call_linear_sample fs ms k :
  sorted <%R fs -> (1 < size fs)%N -> (k < size fs)%N ->
  call_linear fs ms (nth 0 fs k) = Ok (nth 0 ms k : 'M[C]_n).
Proof.
move=> sf sz2 lt_k; case: (ltnP k.+1 (size fs)) => [lt_k1|ge_k1].
  have in_k : nth 0 fs k <= nth 0 fs k <= nth 0 fs k.+1.
    by rewrite lexx ltW // (lt_sorted_ltn_nth 0 sf) ?inE.
  rewrite (call_linear_segment ms sf lt_k1 in_k).
  by rewrite subrr mul0r rmorph0 scale0r addr0.
case: k lt_k ge_k1 => [|k] lt_k ge_k1.
  by move: sz2; rewrite ltnNge (leq_trans ge_k1).
have lt_kk : nth 0 fs k < nth 0 fs k.+1.
  by rewrite (lt_sorted_ltn_nth 0 sf) ?inE // ltnW.
have in_k : nth 0 fs k <= nth 0 fs k.+1 <= nth 0 fs k.+1.
  by rewrite lexx ltW.
rewrite (call_linear_segment ms sf lt_k in_k).
by rewrite divff ?subr_eq0 ?gt_eqF // rmorph1 scale1r addrC subrK.
Qed.

Lemma mapM_nth {A B : Type} (f : A -> result B) (a0 : A) (b0 : B)
    (s : seq A) (bs : seq B) :
  size s = size bs ->
  (forall i, (i < size s)%N -> f (nth a0 s i) = Ok (nth b0 bs i)) ->
  mapM f s = Ok bs.
Proof.
elim: s bs => [|a s IH] [|b bs] //= [sz] nth_s.
by rewrite (nth_s 0%N) //= (IH bs) // => i lt_i; apply: (nth_s i.+1).
Qed.

(** X9: at a sample frequency of a sweep built over at least two strictly
    increasing frequencies, [at] returns the sample of that frequency; on
    the list of its own frequencies it returns the sweep itself. *)
Theorem at_samples fs ms (t : ptype) (z0 : option C) self :
  NPort_new fs ms t z0 = Ok self -> sorted <%R fs -> (1 < size fs)%N ->
  (forall k, (k < size fs)%N ->
     at_single self (nth 0 fs k)
     = Ok (mkNPortMatrix (nth 0 ms k) t (np_z0 self)))
  /\ at_ self fs = Ok self.
Proof.
move=> built sf sz2; have [sz nz zE eS] := NPort_newP built.
have in_r k : (k < size fs)%N -> head 0 fs <= nth 0 fs k <= last 0 fs.
  by move=> lt_k; rewrite sorted_head_le ?sorted_le_last.
split=> [k lt_k|].
  by apply: (at_single_value built); rewrite ?in_r ?call_linear_sample.
have all_r : all (fun g => head 0 fs <= g <= last 0 fs) fs.
  by apply/(all_nthP 0) => k /in_r.
have mE : mapM (call_linear fs ms) fs = Ok ms.
  by apply: (mapM_nth (a0 := 0) (b0 := 0) sz) => k lt_k; apply: call_linear_sample.
rewrite /at_ {1 2}eS /= interp1d_in_range // mE /= eS /=.
by apply: NPort_new_ok => //; exact: z0test_idem zE.
Qed.

(** X10: below the first or above the last frequency of a sweep of at least
    two samples, [at] raises ValueError: there is no extrapolation. *)
Theorem at_out_of_range fs ms (t : ptype) (z0 : option C) self x :
  NPort_new fs ms t z0 = Ok self -> (1 < size fs)%N ->
  (x < head 0 fs ->
   at_single self x
   = Raise (ValueError "A value in x_new is below the interpolation range."))
  /\ (head 0 fs <= x -> last 0 fs < x ->
      at_single self x
      = Raise (ValueError "A value in x_new is above the interpolation range.")).
Proof.
move=> /NPort_newP[sz nz zE ->] sz2.
split=> [lt_x|ge_x gt_x]; rewrite /at_single /at_ /= /interp1d sz eqxx /= -sz.
  by rewrite ltnNge sz2 /= /below_bounds lt_x.
by rewrite ltnNge sz2 /= /below_bounds /above_bounds ltNge ge_x /= gt_x.
Qed.
End InterpolationProperties.

(** ** Operators on sweeps *)

Section OperatorProperties.
Variable C : numClosedFieldType.
Variable n : nat.
Implicit Types (A B : NPort C n) (fa fb : seq rat) (x f : rat).
Implicit Types ma mb : seq 'M[C]_n.

Lemma sorted_unionC fa fb : sorted_union fa fb = sorted_union fb fa.
Proof.
apply: lt_sorted_eq; rewrite ?sorted_union_lt // => x.
by rewrite !mem_sorted_union orbC.
Qed.

(** The operator on two sweeps of one type and impedance, once the common
    frequencies are found. *)
Lemma make_op_aligned (name : opname) fa ma fb mb (t : ptype)
    (za zb : option C) A B :
  NPort_new fa ma t za = Ok A -> NPort_new fb mb t zb = Ok B ->
  np_z0 B = np_z0 A ->
  let lo := Order.max (head 0 fa) (head 0 fb) in
  let hi := Order.min (last 0 fa) (last 0 fb) in
  let grid := [seq f <- sorted_union fa fb | lo <= f <= hi] in
  lo <= hi ->
  make_op name A (Sweep B)
  = (this_matrices <- at_ A grid ;;
     other_matrices <- at_ B grid ;;
     result_matrices <- ndarray_op_samples name (np_array this_matrices)
                                           (np_array other_matrices) ;;
     NPort_new grid result_matrices t (np_z0 A)).
Proof.
move=> bA bB zBA lo hi grid le_lh.
have sa := built_size bA; have sb := built_size bB.
have [_ _ _ eA] := NPort_newP bA; have [_ _ _ eB] := NPort_newP bB.
have [fA tA] : np_freqs A = fa /\ np_type A = t by rewrite eA.
have [fB tB] : np_freqs B = fb /\ np_type B = t by rewrite eB.
rewrite /make_op fA fB tA tB eqxx zBA eqxx /=.
have [-> -> -> -> [/= -> ->]] := bounds_found sa sb.
by rewrite /= slice_index_le ?sorted_union_lt ?lo_mem ?hi_mem.
Qed.

Lemma zip_addC ma mb :
  [seq ab.1 + ab.2 | ab <- zip ma mb] = [seq ab.1 + ab.2 | ab <- zip mb ma].
Proof.
elim: ma mb => [|a ma IH] [|b mb] //=.
by rewrite addrC IH.
Qed.

(** X11: addition of sweeps is commutative.  For two sweeps of one type and
    one reference impedance, built over strictly increasing frequencies with
    overlapping ranges, [A + B] and [B + A] return the same sweep (and do
    return one). *)
Theorem add_commutes fa ma fb mb (t : ptype) (za zb : option C) A B :
  NPort_new fa ma t za = Ok A -> NPort_new fb mb t zb = Ok B ->
  np_z0 B = np_z0 A ->
  sorted <%R fa -> sorted <%R fb ->
  Order.max (head 0 fa) (head 0 fb) < Order.min (last 0 fa) (last 0 fb) ->
  make_op op_add A (Sweep B) = make_op op_add B (Sweep A)
  /\ is_ok (make_op op_add A (Sweep B)).
Proof.
move=> bA bB zBA sfa sfb lt_lh.
set lo := Order.max _ _ in lt_lh; set hi := Order.min _ _ in lt_lh.
set grid := [seq f <- sorted_union fa fb | lo <= f <= hi].
have in_g : all (fun g => lo <= g <= hi) grid by apply: filter_bounds.
have sa := built_size bA; have sb := built_size bB.
have gN : grid != [::].
  by rewrite -has_filter; apply/hasP; exists lo; rewrite ?lo_mem // lexx ltW.
have [in_a in_b] := grid_in_range in_g.
have sza : (1 < size fa)%N.
  by apply: two_samples lt_lh _; rewrite /lo /hi ?le_max ?ge_min lexx.
have szb : (1 < size fb)%N.
  by apply: two_samples lt_lh _; rewrite /lo /hi ?le_max ?ge_min lexx ?orbT.
have [va atA [sva _]] := at_in_range bA sfa sza gN in_a.
have [vb atB [svb _]] := at_in_range bB sfb szb gN in_b.
have sv : size va = size vb by rewrite sva svb.
rewrite (make_op_aligned op_add bA bB zBA (ltW lt_lh)).
have le_hl : Order.max (head 0 fb) (head 0 fa)
              <= Order.min (last 0 fb) (last 0 fa).
  by rewrite maxC minC ltW.
rewrite (make_op_aligned op_add bB bA (esym zBA) le_hl).
rewrite -/lo -/hi -/grid [Order.max (head 0 fb) _]maxC [Order.min (last 0 fb) _]minC.
rewrite -/lo -/hi (sorted_unionC fb fa) -/grid atA atB /=.
rewrite /ndarray_op_samples sv !eqxx /=.
rewrite !(mapM_ok (g := fun ab : 'M[C]_n * 'M[C]_n => ab.1 + ab.2)) //=.
rewrite zBA (zip_addC vb va); split=> //.
have [_ _ zA _] := NPort_newP bA.
rewrite (@NPort_new_ok _ _ _ _ _ _ (np_z0 A)) //; last exact: z0test_idem zA.
  by rewrite size_map size_zip -sv minnn sva.
by rewrite -size_eq0 size_map size_zip -sv minnn sva size_eq0.
Qed.

(** Dividing by a nonzero number divides every entry. *)
Lemma elementwise_div_const (a : 'M[C]_n) (c : C) :
  c != 0 ->
  elementwise_div a (const_mx c) = Ok (map2_mx (fun u v => u / v) a (const_mx c)).
Proof.
move=> cN; rewrite /elementwise_div.
have -> // : [forall i, forall j, (const_mx c : 'M[C]_n) i j != 0].
by apply/forallP => i; apply/forallP => j; rewrite mxE.
Qed.

(** X12: operators with a number on the right act on every sample and keep
    frequencies, type and impedance: adding a number to a sweep and
    subtracting it again returns the sweep, and so does multiplying by a
    nonzero number and dividing by it. *)
Theorem scalar_roundtrip fa ma (t : ptype) (z0 : option C) A (c : C) :
  NPort_new fa ma t z0 = Ok A ->
  (r <- make_op op_add A (Scalar n c) ;; make_op op_sub r (Scalar n c)) = Ok A
  /\ (c != 0 ->
      (r <- make_op op_mul A (Scalar n c) ;; make_op op_div r (Scalar n c))
      = Ok A).
Proof.
move=> /NPort_newP[sz nz zE AE]; have zI := z0test_idem zE.
have nzm (g : 'M[C]_n -> 'M[C]_n) : map g ma != [::].
  by rewrite -size_eq0 size_map size_eq0.
have szm (g : 'M[C]_n -> 'M[C]_n) : size fa = size (map g ma).
  by rewrite size_map.
split=> [|cN]; rewrite {1}AE /make_op /=.
  rewrite (mapM_ok (g := fun a : 'M[C]_n => a + const_mx c)) //=.
  rewrite (NPort_new_ok (szm _) (nzm _) zI) /=.
  rewrite (mapM_ok (g := fun a : 'M[C]_n => a - const_mx c)) //=.
  have -> : [seq a - const_mx c | a <- [seq a + const_mx c | a <- ma]] = ma.
    by rewrite -map_comp -[RHS]map_id; apply: eq_map => a /=; rewrite addrK.
  by rewrite (NPort_new_ok sz nz zI) -AE.
rewrite (mapM_ok (g := fun a : 'M[C]_n => map2_mx *%R a (const_mx c))) //=.
rewrite (NPort_new_ok (szm _) (nzm _) zI) /=.
rewrite (@mapM_ok _ _ _ _ _ (fun a : (matrix C n n) => elementwise_div_const a cN)) /=.
have -> : [seq map2_mx (fun u v => u / v) a (const_mx c)
           | a <- [seq map2_mx *%R a (const_mx c) | a <- ma]] = ma.
  rewrite -map_comp -[RHS]map_id; apply: eq_map => a /=.
  by apply/matrixP => i j; rewrite !mxE mulfK.
by rewrite (NPort_new_ok sz nz zI) -AE.
Qed.

End OperatorProperties.

(** ** Frequency alignment: what + and dot return *)

Section AlignedSamples.
Variable C : numClosedFieldType.
Variable n : nat.
Implicit Types (A B : NPort C n) (fa fb fs grid : seq rat) (x f : rat).
Implicit Types ma mb ms : seq 'M[C]_n.

(** A frequency in the range of a sweep of at least two samples lies
    between two consecutive sample frequencies. *)
Lemma bracket_exists fs x :
  sorted <%R fs -> (1 < size fs)%N -> head 0 fs <= x <= last 0 fs ->
  exists k, brackets fs k x.
Proof.
move=> sf sz2 /andP[le_h le_l].
have s0 : (0 < size fs)%N by apply: ltn_trans sz2.
have has_x : has (fun y => x <= y) fs.
  by apply/hasP; exists (last 0 fs); rewrite ?last_mem.
have := nth_find 0 has_x; have := @before_find _ 0 (fun y => x <= y) fs.
move: has_x; rewrite has_find; case: (find _ fs) => [|j] lt_j below le_j.
  exists 0%N; rewrite /brackets sz2 /=; move: le_h; rewrite -nth0 => le_h.
  have -> : x = nth 0 fs 0 by apply/eqP; rewrite eq_le le_j le_h.
  by rewrite lexx ltW // (lt_sorted_ltn_nth 0 sf) ?inE.
exists j; rewrite /brackets lt_j le_j andbT /=.
by have /negbT := below j (ltnSn j); rewrite -ltNge => /ltW.
Qed.

(** [at] on a grid inside the range of the sweep: a sweep over the grid
    whose samples are the interpolated ones. *)
Lemma at_grid fs ms (t : ptype) (z0 : option C) A grid :
  NPort_new fs ms t z0 = Ok A -> sorted <%R fs -> (1 < size fs)%N ->
  grid != [::] -> all (fun g => head 0 fs <= g <= last 0 fs) grid ->
  exists2 vs,
    at_ A grid = Ok (mkNPort grid vs t (np_z0 A))
    & size vs = size grid /\
      forall i k, (i < size grid)%N -> brackets fs k (nth 0 grid i) ->
        nth 0 vs i = interpolated fs ms k (nth 0 grid i).
Proof.
move=> /NPort_newP[sz nz zE ->] sf sz2 gN in_r /=.
have zI := z0test_idem zE.
have [|vs vsE [szv nthv]] := @mapM_all _ _ (call_linear fs ms) grid.
  by move=> g _; apply: call_linear_ok.
exists vs; rewrite /at_ /=.
  rewrite interp1d_in_range // vsE /=; apply: NPort_new_ok => //.
  by rewrite -size_eq0 szv size_eq0.
split=> // i k lt_i /andP[lt_k in_k].
have := nthv 0 0 i lt_i; rewrite (call_linear_segment ms sf lt_k in_k).
by case.
Qed.

(** C3, as amended: for two sweeps of one parameter type and one reference
    impedance, built by the constructor over strictly increasing frequencies
    [fa] and [fb], each of at least two samples, whose ranges overlap (in an
    interval or in a single frequency), the operator [+] returns a sweep of
    that type and impedance over the sorted union of [fa] and [fb]
    restricted to the overlap interval, both ends included; every frequency
    of the result lies between two consecutive sample frequencies of each
    operand, and the sample of the result is the sum of the two operands
    interpolated linearly there; for [fa = 1,2,3,4] and [fb = 2,3,4,5] the
    frequencies of the result are [2,3,4]. *)
Theorem add_aligned fa ma fb mb (t : ptype) (za zb : option C) A B :
  NPort_new fa ma t za = Ok A -> NPort_new fb mb t zb = Ok B ->
  np_z0 B = np_z0 A ->
  sorted <%R fa -> sorted <%R fb ->
  (1 < size fa)%N -> (1 < size fb)%N ->
  let lo := Order.max (head 0 fa) (head 0 fb) in
  let hi := Order.min (last 0 fa) (last 0 fb) in
  lo <= hi ->
  exists r,
    [/\ make_op op_add A (Sweep B) = Ok r,
        np_freqs r = [seq f <- sorted_union fa fb | lo <= f <= hi],
        np_type r = t /\ np_z0 r = np_z0 A,
        size (np_array r) = size (np_freqs r) /\
        forall i, (i < size (np_freqs r))%N ->
          let f := nth 0 (np_freqs r) i in
          (exists ka kb, brackets fa ka f && brackets fb kb f)
          /\ forall ka kb, brackets fa ka f -> brackets fb kb f ->
               nth 0 (np_array r) i
               = interpolated fa ma ka f + interpolated fb mb kb f
      & fa = [:: 1; 2%:R; 3%:R; 4%:R] -> fb = [:: 2%:R; 3%:R; 4%:R; 5%:R] ->
        np_freqs r = [:: 2%:R; 3%:R; 4%:R]].
Proof.
move=> bA bB zBA sfa sfb sza szb lo hi le_lh.
have sa := built_size bA; have sb := built_size bB.
set grid := [seq f <- sorted_union fa fb | lo <= f <= hi].
have in_g : all (fun g => lo <= g <= hi) grid by apply: filter_bounds.
have gN : grid != [::].
  by rewrite -has_filter; apply/hasP; exists lo; rewrite ?lo_mem // lexx.
have [in_a in_b] := grid_in_range in_g.
have [va atA [sva nva]] := at_grid bA sfa sza gN in_a.
have [vb atB [svb nvb]] := at_grid bB sfb szb gN in_b.
have [_ _ zA _] := NPort_newP bA.
have sv : size va = size vb by rewrite sva svb.
pose ms := [seq ab.1 + ab.2 | ab <- zip va vb].
have szm : size grid = size ms by rewrite size_map size_zip -sv minnn sva.
have msN : ms != [::] by rewrite -size_eq0 -szm size_eq0.
exists (mkNPort grid ms t (np_z0 A)); split=> //.
- rewrite (make_op_aligned op_add bA bB zBA le_lh) -/lo -/hi -/grid.
  rewrite atA atB /= /ndarray_op_samples sv eqxx /=.
  rewrite (mapM_ok (g := fun ab : 'M[C]_n * 'M[C]_n => ab.1 + ab.2)) //=.
  exact: NPort_new_ok szm msN (z0test_idem zA).
- split=> //= i lt_i; split.
    have [ka bka] := bracket_exists sfa sza (allP in_a _ (mem_nth 0 lt_i)).
    have [kb bkb] := bracket_exists sfb szb (allP in_b _ (mem_nth 0 lt_i)).
    by exists ka, kb; rewrite bka bkb.
  move=> ka kb bka bkb.
  by rewrite nth_zipwith ?sva // (nva i ka) // (nvb i kb).
- by move=> efa efb; rewrite /= /grid /lo /hi efa efb; vm_compute.
Qed.

(** C2, as amended: for two plain sweeps built by the constructor over
    strictly increasing frequencies [fa] and [fb] whose ranges overlap in
    more than a single frequency, dot returns a sweep over the sorted union
    of [fa] and [fb] restricted to the overlap interval without its upper
    end; every frequency of the result lies between two consecutive sample
    frequencies of each operand, and the sample of the result is the matrix
    product of the two operands interpolated linearly there; the result is
    tagged with the type and the reference impedance of the first operand. *)
Theorem dot_aligned fa ma fb mb (ta tb : ptype) (za zb : option C) A B :
  NPort_new fa ma ta za = Ok A -> NPort_new fb mb tb zb = Ok B ->
  sorted <%R fa -> sorted <%R fb ->
  let lo := Order.max (head 0 fa) (head 0 fb) in
  let hi := Order.min (last 0 fa) (last 0 fb) in
  lo < hi ->
  exists r,
    [/\ dot A (Sweep B) = Ok r,
        np_freqs r = [seq f <- sorted_union fa fb | lo <= f < hi],
        np_type r = np_type A /\ np_z0 r = np_z0 A,
        size (np_array r) = size (np_freqs r)
      & forall i, (i < size (np_freqs r))%N ->
          let f := nth 0 (np_freqs r) i in
          (exists ka kb, brackets fa ka f && brackets fb kb f)
          /\ forall ka kb, brackets fa ka f -> brackets fb kb f ->
               nth 0 (np_array r) i
               = interpolated fa ma ka f *m interpolated fb mb kb f].
Proof.
move=> bA bB sfa sfb lo hi lt_lh.
have sa := built_size bA; have sb := built_size bB.
set grid := [seq f <- sorted_union fa fb | lo <= f < hi].
have in_g : all (fun g => lo <= g <= hi) grid.
  by apply: filter_bounds => g /andP[-> /ltW].
have gN : grid != [::].
  by rewrite -has_filter; apply/hasP; exists lo; rewrite ?lo_mem // lexx.
have [in_a in_b] := grid_in_range in_g.
have sza : (1 < size fa)%N.
  by apply: two_samples lt_lh _; rewrite /lo /hi ?le_max ?ge_min lexx.
have szb : (1 < size fb)%N.
  by apply: two_samples lt_lh _; rewrite /lo /hi ?le_max ?ge_min lexx ?orbT.
have [va atA [sva nva]] := at_grid bA sfa sza gN in_a.
have [vb atB [svb nvb]] := at_grid bB sfb szb gN in_b.
have [_ _ zA eA] := NPort_newP bA; have [_ _ zB eB] := NPort_newP bB.
have sv : size va = size vb by rewrite sva svb.
pose ms := [seq ab.1 *m ab.2 | ab <- zip va vb].
have szm : size grid = size ms by rewrite size_map size_zip -sv minnn sva.
have msN : ms != [::] by rewrite -size_eq0 -szm size_eq0.
have tA : np_type A = ta by rewrite eA.
exists (mkNPort grid ms ta (np_z0 A)); split=> //.
- have fA : np_freqs A = fa by rewrite eA.
  have fB : np_freqs B = fb by rewrite eB.
  rewrite /dot fA fB merge_freqs_overlap //= -/lo -/hi -/grid.
  rewrite atA atB /= tA.
  exact: NPort_new_ok szm msN (z0test_idem zA).
- move=> /= i lt_i; split.
    have [ka bka] := bracket_exists sfa sza (allP in_a _ (mem_nth 0 lt_i)).
    have [kb bkb] := bracket_exists sfb szb (allP in_b _ (mem_nth 0 lt_i)).
    by exists ka, kb; rewrite bka bkb.
  move=> ka kb bka bkb.
  by rewrite (nth_zipwith mulmx) ?sva // (nva i ka) // (nvb i kb).
Qed.

End AlignedSamples.

(** ** Methods of sweeps: invert, average, ispassive, renormalize,
       recombine *)

Section SweepMethodProperties.
Variable C : numClosedFieldType.
Variable n : nat.
Implicit Types (A : NPort C n) (fa : seq rat) (ma : seq 'M[C]_n).

(** Each sample of a sweep the constructor built passes the matrix
    constructor under the sweep's tags. *)
Lemma sample_new fa ma (t : ptype) (z0 : option C) A (m : 'M[C]_n) :
  NPort_new fa ma t z0 = Ok A ->
  NPortMatrix_new m (np_type A) (np_z0 A)
  = Ok (mkNPortMatrix m (np_type A) (np_z0 A)).
Proof.
case/NPort_newP=> _ _ /z0test_idem zE ->; rewrite /NPortMatrix_new /=.
by rewrite zE.
Qed.

(** X13: [invert] on a sweep built by the constructor.  If every sample is
    an invertible matrix, inverting twice returns the sweep; if one sample is
    singular, [invert] raises LinAlgError. *)
Theorem NPort_invert_involutive fa ma (t : ptype) (z0 : option C) A :
  NPort_new fa ma t z0 = Ok A ->
  if all (fun m : 'M[C]_n => m \in unitmx) ma
  then (r <- NPort_invert A ;; NPort_invert r) = Ok A
  else NPort_invert A = Raise LinAlgError.
Proof.
move=> bA; have [sz nz zE AE] := NPort_newP bA; have zI := z0test_idem zE.
have newE (m : 'M[C]_n) := sample_new m bA.
have aE : np_array A = ma by rewrite AE.
have fE : np_freqs A = fa by rewrite AE.
have tE : np_type A = t by rewrite AE.
have invE (s : seq 'M[C]_n) :
    all (fun m : 'M[C]_n => m \in unitmx) s ->
    mapM (fun matrix : 'M[C]_n =>
            nportmatrix <- NPortMatrix_new matrix (np_type A) (np_z0 A) ;;
            invert (pm_array nportmatrix)) s
    = Ok [seq invmx m | m <- s].
  move=> u_s; apply: mapM_ok_in => m m_in.
  by rewrite newE /= invert_unit // (allP u_s).
case: ifP => [u_ma|/negbT/allPn[m m_in /negPf uN]].
  have szi : size fa = size [seq invmx m | m <- ma] by rewrite size_map.
  have nzi : [seq invmx m | m <- ma] != [::].
    by rewrite -size_eq0 size_map size_eq0.
  rewrite /NPort_invert aE fE invE // /bind tE (NPort_new_ok szi nzi zI) /=.
  have -> : mapM (fun matrix : 'M[C]_n =>
                    nportmatrix <- NPortMatrix_new matrix t (np_z0 A) ;;
                    invert (pm_array nportmatrix)) [seq invmx m | m <- ma]
            = Ok [seq invmx m | m <- [seq invmx m | m <- ma]].
    rewrite -tE; apply: invE; apply/allP => m /mapP[m' m_in ->].
    by rewrite unitmx_inv (allP u_ma).
  have -> : [seq invmx m | m <- [seq invmx m | m <- ma]] = ma.
    rewrite -map_comp -[RHS]map_id; apply/eq_in_map => m m_in /=.
    by rewrite invmxK.
  by rewrite (NPort_new_ok sz nz zI) -AE.
rewrite /NPort_invert aE.
have -> // : mapM (fun matrix : 'M[C]_n =>
                  nportmatrix <- NPortMatrix_new matrix (np_type A) (np_z0 A) ;;
                  invert (pm_array nportmatrix)) ma
          = Raise LinAlgError.
elim: (ma) m_in => [|a s IH] //=; rewrite inE => /orP[/eqP <-|m_in].
  by rewrite newE /= /invert uN.
rewrite newE /= {1}/invert; case: ifP => //= _.
by rewrite IH.
Qed.

(** *** average *)

(** The index the loop of [average] reads lies in the sweep ... *)
Lemma clampP (len : nat) (x : int) :
  (0 < len)%N -> exists2 k, clamp_index len x = Posz k & (k < len)%N.
Proof.
move=> len0; rewrite /clamp_index; case: ltP => [_|x0]; first by exists 0%N.
case: leP => [_|xl].
  by exists len.-1; rewrite ?prednK // -subn1 -subzn.
by case: x x0 xl => // k _; rewrite ltz_nat => lt_k; exists k.
Qed.

(** ... and is the index itself where that lies in the sweep. *)
Lemma clamp_in (len k : nat) :
  (k < len)%N -> clamp_index len (Posz k) = Posz k.
Proof.
by move=> lt_k; rewrite /clamp_index (ltz_nat k 0) ltn0 lez_nat leqNgt lt_k.
Qed.

(** [self[k]] for an index in range: the sample under the tags of the
    sweep. *)
Lemma NPort_getitem_nat fa ma (t : ptype) (z0 : option C) A (k : nat) :
  NPort_new fa ma t z0 = Ok A -> (k < size ma)%N ->
  NPort_getitem A (Posz k)
  = Ok (mkNPortMatrix (nth 0 ma k) (np_type A) (np_z0 A)).
Proof.
move=> bA lt_k; have [_ _ _ AE] := NPort_newP bA.
have aE : np_array A = ma by rewrite AE.
by rewrite /NPort_getitem /getitem aE /= lt_k /= (sample_new _ bA).
Qed.

(** The inner loop of [average], for a window that is empty or whose
    length is the divisor. *)
Lemma foldM_window fa ma (t : ptype) (z0 : option C) A (w i : nat)
    (js : seq int) (acc : 'M[C]_n) :
  NPort_new fa ma t z0 = Ok A -> (0 < w)%N ->
  foldM (fun acc j =>
           s <- NPort_getitem A (clamp_index (size ma) (Posz i + j)) ;;
           q <- array_div (pm_array s) w%:R ;;
           Ok (acc + q)) acc js
  = Ok (acc + \sum_(j <- js)
                w%:R^-1 *: nth 0 ma `|clamp_index (size ma) (Posz i + j)|).
Proof.
move=> bA w0; have [sz nz _ _] := NPort_newP bA.
have len0 : (0 < size ma)%N by rewrite lt0n size_eq0.
have wN : (w%:R : C) != 0 by rewrite pnatr_eq0 -lt0n.
elim: js acc => [|j js IH] acc /=; first by rewrite big_nil addr0.
have [k kE lt_k] := clampP (Posz i + j) len0.
rewrite kE (NPort_getitem_nat bA lt_k) /= array_div_neq0 //= IH.
by rewrite big_cons kE addrA.
Qed.

(** [average] never raises on a sweep built by the constructor; each
    sample is a sum over the window. *)
Lemma average_closed fa ma (t : ptype) (z0 : option C) A (w : nat) :
  NPort_new fa ma t z0 = Ok A ->
  average A w
  = Ok (mkNPort fa
          [seq \sum_(j <- window w)
                 w%:R^-1 *: nth 0 ma `|clamp_index (size ma) (Posz i + j)|
          | i <- iota 0 (size ma)]
          t (np_z0 A)).
Proof.
move=> bA; have [sz nz zE AE] := NPort_newP bA; have zI := z0test_idem zE.
have aE : np_array A = ma by rewrite AE.
have fE : np_freqs A = fa by rewrite AE.
have tE : np_type A = t by rewrite AE.
rewrite /average aE fE tE.
set g := fun i : nat => \sum_(j <- window w) _.
have -> : mapM (fun i : nat =>
                  foldM (fun acc j =>
                           s <- NPort_getitem A
                                  (clamp_index (size ma) (Posz i + j)) ;;
                           q <- array_div (pm_array s) w%:R ;;
                           Ok (acc + q)) 0 (window w)) (iota 0 (size ma))
          = Ok [seq g i | i <- iota 0 (size ma)].
  apply: mapM_ok => i; case: (posnP w) => [w0|w0].
    by rewrite /g w0 /window /= big_nil.
  by rewrite (foldM_window i _ _ bA w0) add0r.
have szg : size fa = size [seq g i | i <- iota 0 (size ma)].
  by rewrite size_map size_iota.
have nzg : [seq g i | i <- iota 0 (size ma)] != [::].
  by rewrite -size_eq0 size_map size_iota size_eq0.
by rewrite /= (NPort_new_ok szg nzg zI).
Qed.

Lemma nth_average (g : nat -> 'M[C]_n) (len i : nat) :
  (i < len)%N -> nth 0 [seq g k | k <- iota 0 len] i = g i.
Proof. by move=> lt_i; rewrite (nth_map 0%N) ?size_iota // nth_iota. Qed.

Lemma sum_window (F : int -> 'M[C]_n) (w : nat) :
  \sum_(j <- window w) F j = \sum_(k < w) F (Posz k - Posz w./2).
Proof.
have -> : window w = [seq Posz k - Posz w./2 | k <- index_iota 0 w].
  by rewrite /index_iota subn0.
by rewrite big_map big_mkord.
Qed.

(** X14: [average] with a window of [w > 0] samples keeps frequencies,
    type, impedance and the number of samples, and where the window lies
    inside the sweep (from [i - floor(w/2)] to [i + ceil(w/2) - 1]) the
    sample [i] of the result is the mean of the [w] samples of the window. *)
Theorem average_interior fa ma (t : ptype) (z0 : option C) A (w i : nat) :
  NPort_new fa ma t z0 = Ok A -> (0 < w)%N ->
  (w./2 <= i)%N -> (i + (w - w./2) <= size ma)%N ->
  exists2 r, average A w = Ok r
  & [/\ np_freqs r = fa, np_type r = t, np_z0 r = np_z0 A,
        size (np_array r) = size ma
      & nth 0 (np_array r) i
        = w%:R^-1 *: \sum_(k < w) nth 0 ma (i - w./2 + k)].
Proof.
move=> bA w0 le_hi le_il; rewrite (average_closed w bA).
eexists; first by [].
have lt_hw : (w./2 < w)%N.
  by rewrite ltn_half_double -addnn -{1}(addn0 w) ltn_add2l.
have le_hw := ltnW lt_hw.
have lt_i : (i < size ma)%N.
  by apply: leq_trans le_il; rewrite -addn1 leq_add2l subn_gt0.
split=> //=; first by rewrite size_map size_iota.
rewrite nth_average // sum_window scaler_sumr; apply: eq_bigr => k _.
have -> : Posz i + (Posz k - Posz w./2) = Posz (i - w./2 + k).
  by rewrite addrA addrAC subzn // -PoszD.
have lt_k : (i - w./2 + k < size ma)%N.
  apply: leq_trans le_il.
  by rewrite addnBA // -addnBAC // -addnS leq_add2l ltn_ord.
by rewrite clamp_in.
Qed.

(** Every sample of a constant list is its head. *)
Lemma nth_constant (x0 : 'M[C]_n) (s : seq 'M[C]_n) (k : nat) :
  constant s -> (k < size s)%N -> nth x0 s k = head x0 s.
Proof.
case: s => [|x s] //= /allP all_x; case: k => [|k] //=; rewrite ltnS => lt_k.
by apply/eqP/(all_x (nth x0 s k)); rewrite mem_nth.
Qed.

(** X15: [average] returns the sweep it is given when the window has one
    sample, and for any positive window when all samples of the sweep are
    the same matrix (the indices clamped at both ends included). *)
Theorem average_fixed fa ma (t : ptype) (z0 : option C) A (w : nat) :
  NPort_new fa ma t z0 = Ok A ->
  (w == 1%N) || ((0 < w)%N && constant ma) ->
  average A w = Ok A.
Proof.
move=> bA fixed; rewrite (average_closed w bA).
have [sz nz _ AE] := NPort_newP bA.
have len0 : (0 < size ma)%N by rewrite lt0n size_eq0.
rewrite [in RHS]AE; congr (Ok (mkNPort _ _ _ _)).
apply: (@eq_from_nth _ 0) => [|i]; rewrite size_map size_iota // => lt_i.
rewrite nth_average // sum_window.
case/orP: fixed => [/eqP ->|/andP[w0 c_ma]].
  by rewrite big_ord1 /= subrr addr0 clamp_in // invr1 scale1r.
rewrite (nth_constant 0 c_ma lt_i).
have wN : (w%:R : C) != 0 by rewrite pnatr_eq0 -lt0n.
have -> : \sum_(k < w) w%:R^-1 *: nth 0 ma
                         `|clamp_index (size ma) (Posz i + (Posz k - Posz w./2))|
          = \sum_(k < w) w%:R^-1 *: head 0 ma.
  apply: eq_bigr => k _.
  have [k' -> lt_k'] := clampP (Posz i + (Posz k - Posz w./2)) len0.
  by rewrite (nth_constant 0 c_ma lt_k').
by rewrite sumr_const card_ord -scaler_nat scalerA divff // scale1r.
Qed.

(** X16: with a window of 0 samples the loop body of [average] never runs
    (no division by 0 takes place) and the result is the sweep of zero
    matrices over the same frequencies. *)
Theorem average_empty_window fa ma (t : ptype) (z0 : option C) A :
  NPort_new fa ma t z0 = Ok A ->
  average A 0 = Ok (mkNPort fa (nseq (size ma) 0) t (np_z0 A)).
Proof.
move=> bA; rewrite (average_closed 0 bA); congr (Ok (mkNPort _ _ _ _)).
apply: (@eq_from_nth _ 0) => [|i]; rewrite size_map size_iota ?size_nseq //.
by move=> lt_i; rewrite nth_average // nth_nseq lt_i /window /= big_nil.
Qed.

(** *** ispassive, renormalize and recombine on sweeps *)

(** X17: [ispassive] on an S-typed sweep of port count [n > 0] returns
    True exactly when, in every sample, the squared magnitudes of each row
    sum to at most 1; it never raises. *)
Theorem NPort_ispassive_scattering fa ma (z0 : option C) A :
  NPort_new fa ma TYPE_S z0 = Ok A -> (0 < n)%N ->
  NPort_ispassive A
  = Ok (all (fun m : 'M[C]_n => [forall i, \sum_j `|m i j| ^+ 2 <= 1]) ma).
Proof.
move=> bA n0; have [_ _ _ AE] := NPort_newP bA.
have aE : np_array A = ma by rewrite AE.
have tE : np_type A = TYPE_S by rewrite AE.
have newE (m : 'M[C]_n) := sample_new m bA.
rewrite /NPort_ispassive aE.
elim: (ma) => [|m s IH] //=.
rewrite newE /= /ispassive /= tE /= ispassive_scatteringE //=.
by rewrite -tE IH; case: ifP.
Qed.

(** What a successful [mapM] returned, sample by sample. *)
Lemma mapM_inv {T U : Type} (f : T -> result U) (s : seq T) (bs : seq U) :
  mapM f s = Ok bs ->
  size bs = size s /\
  forall a0 b0 i, (i < size s)%N -> f (nth a0 s i) = Ok (nth b0 bs i).
Proof.
elim: s bs => [|a s IH] bs /=; first by case=> <-.
case fa: (f a) => [b|] //=; case ms: (mapM f s) => [bs'|] //= [<-] /=.
have [-> nth_s] := IH _ ms; split=> // a0 b0 [|i] //=.
by rewrite ltnS; apply: nth_s.
Qed.

(** X18: when [renormalize] on an S-typed sweep returns, the result keeps
    the frequencies, is of type S and tagged with the new impedance, and its
    sample [k] is what [NPortMatrix.renormalize] returns on sample [k] of
    the sweep. *)
Theorem NPort_renormalize_samples fa ma (z0 : option C) A (z : C) R (k : nat) :
  NPort_new fa ma TYPE_S z0 = Ok A -> NPort_renormalize A z = Ok R ->
  (k < size ma)%N ->
  [/\ np_freqs R = fa, np_type R = TYPE_S, np_z0 R = Some z
    & NPort_getitem R (Posz k)
      = (m <- NPort_getitem A (Posz k) ;; renormalize m z)].
Proof.
move=> bA + lt_k; have [sz nz _ AE] := NPort_newP bA.
have aE : np_array A = ma by rewrite AE.
have fE : np_freqs A = fa by rewrite AE.
have tE : np_type A = TYPE_S by rewrite AE.
rewrite (NPort_getitem_nat bA lt_k) /= /NPort_renormalize tE /=.
case: eqP => [zE [<-]|_].
  by rewrite (NPort_getitem_nat bA lt_k) tE renormalize_same.
rewrite aE fE.
case mE: (mapM _ ma) => [rs|] //=.
have [szr nth_rs] := mapM_inv mE.
have nzr : [seq pm_array r | r <- rs] != [::].
  by rewrite -size_eq0 size_map szr size_eq0.
have szm : size fa = size [seq pm_array r | r <- rs] by rewrite size_map szr.
have zS : z0test TYPE_S (Some z) = Ok (Some z) by [].
rewrite (NPort_new_ok szm nzr zS) => -[<-] /=; split=> //.
pose b0 := mkNPortMatrix (0 : 'M[C]_n) TYPE_S None.
have := nth_rs 0 b0 k lt_k; rewrite -tE (sample_new _ bA) /= => rE.
have [tr zr] := renormalize_tagged rE.
rewrite rE /NPort_getitem /getitem /= size_map szr lt_k /=.
rewrite (nth_map b0) ?szr //.
by rewrite tE; case: (nth b0 rs k) tr zr => a t' z' /= -> ->.
Qed.

(** [recombine] returns an impedance matrix. *)
Lemma recombine_type (self : NPortMatrix C n) (ps : seq portset)
    (rc : NPortMatrix C (matrix_rows ps)) :
  recombine self ps = Ok rc -> pm_type rc = TYPE_Z.
Proof.
rewrite /recombine; case: eqP => //= tZ.
case: (mapM _ ps) => //= rows; case: ifP => // _.
by rewrite tZ; case/NPortMatrix_newP.
Qed.

(** Converting an impedance matrix to S without [z0] is converting it at
    50. *)
Lemma convert_Z_S_default p (rc : NPortMatrix C p) :
  pm_type rc = TYPE_Z ->
  convert rc TYPE_S None = convert rc TYPE_S (Some 50%:R).
Proof. by move=> tZ; rewrite /convert /convert_z0test tZ. Qed.

Lemma convert_Z_S_tag p (rc s : NPortMatrix C p) (z : C) :
  pm_type rc = TYPE_Z -> convert rc TYPE_S (Some z) = Ok s ->
  pm_z0 s = Some z.
Proof.
move=> tZ; rewrite /convert /convert_z0test tZ /=.
case: (array_div _ _) => //= q; case: (invert _) => //= i.
by rewrite NPortMatrix_new_Some // => -[<-].
Qed.

(** X19: when [recombine] on an S-typed sweep returns, the result keeps
    frequencies, type and the impedance tag of the sweep, while its sample
    [k] is the recombined impedance matrix of sample [k] (converted from S at
    the impedance of the sweep) converted back to S at the impedance 50,
    whatever the impedance of the sweep is. *)
Theorem NPort_recombine_scattering fa ma (z0 : option C) A
    (ps : seq portset) R (k : nat) :
  NPort_new fa ma TYPE_S z0 = Ok A -> NPort_recombine A ps = Ok R ->
  (k < size ma)%N ->
  exists zk rc s,
    [/\ convert (mkNPortMatrix (nth 0 ma k) TYPE_S (np_z0 A)) TYPE_Z None
        = Ok zk,
        recombine zk ps = Ok rc,
        convert rc TYPE_S (Some 50%:R) = Ok s,
        pm_z0 s = Some 50%:R /\ nth 0 (np_array R) k = pm_array s
      & [/\ np_freqs R = fa, np_type R = TYPE_S & np_z0 R = np_z0 A]].
Proof.
move=> bA + lt_k; have [sz nz zE AE] := NPort_newP bA.
have zI := z0test_idem zE.
have aE : np_array A = ma by rewrite AE.
have fE : np_freqs A = fa by rewrite AE.
have tE : np_type A = TYPE_S by rewrite AE.
rewrite /NPort_recombine aE fE.
case mE: (mapM _ ma) => [rs|] //=.
have [szr nth_rs] := mapM_inv mE.
have nzr : [seq pm_array r | r <- rs] != [::].
  by rewrite -size_eq0 size_map szr size_eq0.
have szm : size fa = size [seq pm_array r | r <- rs] by rewrite size_map szr.
rewrite tE (NPort_new_ok szm nzr zI) => -[<-] /=.
pose b0 := mkNPortMatrix (0 : 'M[C]_(matrix_rows ps)) TYPE_S None.
have := nth_rs 0 b0 k lt_k; rewrite -{1}tE (sample_new _ bA) /= tE.
case zkE: (convert _ TYPE_Z None) => [zk|] //=.
case rcE: (recombine zk ps) => [rc|] //=.
have tZ := recombine_type rcE.
rewrite (convert_Z_S_default tZ) => sE.
exists zk, rc, (nth b0 rs k); split=> //; split.
  exact: convert_Z_S_tag tZ sE.
by rewrite (nth_map b0) ?szr.
Qed.

End SweepMethodProperties.

(** ** dot with a second argument that is not a sweep *)

Section DotProperties.
Variable C : numClosedFieldType.
Variable n : nat.

(** X20: [dot] with an NPort and a second argument that is not an NPort
    never returns a sweep: it reads the attribute [matrices], which an NPort
    does not have, and raises AttributeError for every sweep and number. *)
Theorem dot_constant_raises (arg1 : NPort C n) (c : C) :
  dot arg1 (Scalar n c) = Raise (AttributeError "matrices").
Proof. by []. Qed.

End DotProperties.

(** ** Renormalization and the conversion through Z *)

Section RenormalizeViaImpedance.
Variable C : numClosedFieldType.
Variable n : nat.
Implicit Types (A : 'M[C]_n) (self : NPortMatrix C n).

(** The matrix inverted on the way from Z to S at [z1], for the impedance
    matrix of the scattering matrix [A] at [z0]. *)
Lemma via_impedance A (z0 z1 : C) :
  let r := (z1 - z0) / (z1 + z0) in
  let Q := 1%:M + z1^-1 *: (z0 *: (2%:R *: invmx (1%:M - A) - 1%:M)) in
  z1 != 0 -> z1 + z0 != 0 ->
  1%:M - A \in unitmx -> 1%:M - r *: A \in unitmx ->
  Q \in unitmx
  /\ 1%:M - 2%:R *: invmx Q = (A - r *: 1%:M) *m invmx (1%:M - r *: A).
Proof.
move=> r Q z1N sN uB uU.
set B := 1%:M - A in uB Q *; set U := 1%:M - r *: A in uU *.
pose c := (z1 + z0) / z1.
have cN : c != 0 by rewrite mulf_neq0 ?invr_eq0.
have QB : Q *m B = c *: U.
  rewrite /Q mulmxDl mul1mx -!scalemxAl mulmxBl mul1mx -scalemxAl mulVmx //.
  rewrite /B /U /c /r; apply/matrixP => i j; rewrite !mxE.
  by field; rewrite z1N.
pose X := c^-1 *: (B *m invmx U).
have QX : Q *m X = 1%:M.
  by rewrite /X -scalemxAr mulmxA QB -scalemxAl mulmxV // scalerA mulVf ?scale1r.
have [uQ _] := mulmx1_unit QX.
have -> : invmx Q = X by rewrite -[X](mulKmx uQ) QX mulmx1.
split=> //.
rewrite -[1%:M in LHS](mulmxV uU) /X scalerA scalemxAl -mulmxBl.
congr (_ *m _).
rewrite /B /U /c /r; apply/matrixP => i j; rewrite !mxE.
by field; rewrite z1N.
Qed.

(** X21: the two ways from S at [z0] to S at [z1] agree.  For an S-typed
    matrix of impedance [z0], converting to Z and then to S at [z1] returns
    what [renormalize] to [z1] returns, for [z1] nonzero, [z1 + z0] nonzero
    and the two matrices inverted on the way, [1 - A] and [1 - r A] with
    [r = (z1 - z0) / (z1 + z0)], invertible. *)
Theorem renormalize_via_impedance self (z0 z1 : C) :
  pm_type self = TYPE_S -> pm_z0 self = Some z0 ->
  z1 != 0 -> z1 + z0 != 0 ->
  1%:M - pm_array self \in unitmx ->
  1%:M - ((z1 - z0) / (z1 + z0)) *: pm_array self \in unitmx ->
  (x <- convert self TYPE_Z None ;; convert x TYPE_S (Some z1))
  = renormalize self z1.
Proof.
case: self => A t z /= -> -> z1N sN uB uU.
have [uQ QE] := via_impedance z1N sN uB uU.
rewrite /convert /convert_z0test /= /idty (invert_unit uB) /=.
rewrite array_div_neq0 //= (invert_unit uQ) /= QE.
have [e|ne] := eqVneq z1 z0.
  rewrite e renormalize_same // subrr mul0r !scale0r !subr0 invmx1 mulmx1.
  by rewrite /NPortMatrix_new.
by rewrite (@renormalize_other _ _ _ z0 z1).
Qed.

End RenormalizeViaImpedance.

(** * Further instances on algebraic complex numbers *)

(** C2 as first stated fails where the two ranges overlap in a single
    frequency: for sweeps over [1, 2] and [2, 3] the grid without its upper
    end is empty, and dot raises IndexError instead of returning a sweep. *)
Lemma dot_single_frequency_overlap :
  let ms := [:: (1%:M : 'M[algC]_1); 1%:M] in
  let A := mkNPort [:: 1; 2%:R] ms TYPE_Z None in
  let B := mkNPort [:: 2%:R; 3%:R] ms TYPE_Z None in
  [/\ NPort_new [:: 1; 2%:R] ms TYPE_Z None = Ok A,
      NPort_new [:: 2%:R; 3%:R] ms TYPE_Z None = Ok B,
      Order.max (head 0 (np_freqs A)) (head 0 (np_freqs B))
      <= Order.min (last 0 (np_freqs A)) (last 0 (np_freqs B))
    & dot A (Sweep B) = Raise (IndexError "index out of range")].
Proof.
move=> ms A B; split; [by [] | by [] | by [] |].
exact: (@dot_single_common_frequency algC 1 [:: 1; 2%:R] ms [:: 2%:R; 3%:R] ms
          TYPE_Z TYPE_Z None None A B (erefl _) (erefl _) (erefl _) (erefl _)
          (erefl _)).
Qed.

(** C3 as first stated fails where an operand has a single sample: the
    sweep over [2] lies in the range of the sweep over [1, 3], and [+]
    raises the ValueError of the interpolation instead of returning a
    sweep. *)
Lemma add_single_sample_operand :
  let A := mkNPort [:: 1; 3%:R] [:: (1%:M : 'M[algC]_1); 1%:M] TYPE_Z None in
  let B := mkNPort [:: 2%:R] [:: (1%:M : 'M[algC]_1)] TYPE_Z None in
  [/\ NPort_new [:: 1; 3%:R] [:: 1%:M; 1%:M] TYPE_Z None = Ok A,
      NPort_new [:: 2%:R] [:: 1%:M] TYPE_Z None = Ok B,
      np_type B = np_type A /\ np_z0 B = np_z0 A,
      Order.max (head 0 (np_freqs A)) (head 0 (np_freqs B))
      <= Order.min (last 0 (np_freqs A)) (last 0 (np_freqs B))
    & make_op op_add A (Sweep B)
      = Raise (ValueError "x and y arrays must have at least 2 entries")].
Proof.
move=> A B; split; [by [] | by [] | by [] | by [] |].
rewrite (@make_op_aligned algC 1 op_add [:: 1; 3%:R] [:: 1%:M; 1%:M]
           [:: 2%:R] [:: 1%:M] TYPE_Z None None A B (erefl _) (erefl _)
           (erefl _) (erefl _)).
set grid := [seq f <- _ | _].
have gE : grid = [:: 2%:R] by rewrite /grid; vm_compute.
have [|//|vs -> _] := @at_grid algC 1 [:: 1; 3%:R] [:: 1%:M; 1%:M] TYPE_Z None
                        A grid (erefl _) (erefl _) (erefl _).
  by rewrite gE.
by rewrite gE.
Qed.

Lemma add_aligned_witness :
  let ma := [:: (1%:M : 'M[algC]_1); 2%:R%:M; 3%:R%:M; 4%:R%:M] in
  let mb := [:: (5%:R%:M : 'M[algC]_1); 6%:R%:M; 7%:R%:M; 8%:R%:M] in
  let A := mkNPort [:: 1; 2%:R; 3%:R; 4%:R] ma TYPE_Z None in
  let B := mkNPort [:: 2%:R; 3%:R; 4%:R; 5%:R] mb TYPE_Z None in
  exists2 r, make_op op_add A (Sweep B) = Ok r
           & np_freqs r = [:: 2%:R; 3%:R; 4%:R]
             /\ nth 0 (np_array r) 1 = 3%:R%:M + 6%:R%:M.
Proof.
move=> ma mb A B.
have [r [opE fE _ [_ sE] ex]] :=
  @add_aligned algC 1 [:: 1; 2%:R; 3%:R; 4%:R] ma [:: 2%:R; 3%:R; 4%:R; 5%:R]
               mb TYPE_Z None None A B (erefl _) (erefl _) (erefl _)
               (erefl _) (erefl _) (erefl _) (erefl _) (erefl _).
have fr := ex (erefl _) (erefl _).
exists r => //; split=> //.
have lt1 : (1 < size (np_freqs r))%N by rewrite fr.
have [_] := sE 1%N lt1; rewrite fr /= => /(_ 2%N 1%N (erefl _) (erefl _)) ->.
by rewrite /interpolated /= !subrr !mul0r !rmorph0 !scale0r !addr0.
Defined.

Lemma dot_aligned_witness :
  let fa := [:: 1; 3%:R] in
  let fb := [:: 2%:R; 4%:R] in
  let ma := [:: (1%:M : 'M[algC]_1); 3%:R%:M] in
  let mb := [:: (5%:R%:M : 'M[algC]_1); 7%:R%:M] in
  let A := mkNPort fa ma TYPE_Z None in
  let B := mkNPort fb mb TYPE_Y None in
  exists2 r, dot A (Sweep B) = Ok r
           & [/\ np_freqs r = [:: 2%:R], np_type r = TYPE_Z
               & nth 0 (np_array r) 0
                 = interpolated fa ma 0 2%:R *m interpolated fb mb 0 2%:R].
Proof.
move=> fa fb ma mb A B.
have [r [dotE fE [tE _] _ sE]] :=
  @dot_aligned algC 1 fa ma fb mb TYPE_Z TYPE_Y None None A B (erefl _)
               (erefl _) (erefl _) (erefl _) (erefl _).
have fr : np_freqs r = [:: 2%:R] by rewrite fE; vm_compute.
exists r => //; split=> //.
have lt0 : (0 < size (np_freqs r))%N by rewrite fr.
by have [_] := sE 0%N lt0; rewrite fr /= => /(_ 0%N 0%N (erefl _) (erefl _)).
Defined.

(** C4, on the code: under true division the operator [/] is
    [__truediv__], which the metaclass does not wrap.  Between two S-typed
    sweeps of reference impedances 50 and 75, the wrapped [__div__] raises
    the impedance-mismatch ValueError, and [__truediv__] returns a sweep,
    tagged with the impedance of the left operand. *)
Theorem truediv_impedance_unchecked :
  let ms := [:: (1%:M : 'M[algC]_1)] in
  let this := mkNPort [:: 1] ms TYPE_S (Some 50%:R) in
  let other := mkNPort [:: 1] ms TYPE_S (Some 75%:R) in
  [/\ NPort_new [:: 1] ms TYPE_S (Some 50%:R) = Ok this,
      NPort_new [:: 1] ms TYPE_S (Some 75%:R) = Ok other,
      np_type other = np_type this /\ np_z0 other <> np_z0 this,
      make_op op_div this (Sweep other)
      = Raise (ValueError "operands have different Z0")
    & truediv this (Sweep other) = Ok this].
Proof.
move=> ms this other.
have zN : np_z0 other <> np_z0 this by case=> /eqP; rewrite eqr_nat.
split; [by [] | by [] | by [] | exact: op_impedance_mismatch |].
rewrite /truediv /broadcast /= /elementwise_div.
have -> : [forall i, forall j, (1%:M : 'M[algC]_1) i j != 0].
  by apply/forallP => i; apply/forallP => j; rewrite !ord1 mxE eqxx oner_neq0.
rewrite /= /this /ms; congr (Ok (mkNPort _ [:: _] _ _)).
by apply/matrixP => i j; rewrite !mxE !ord1 eqxx divr1.
Qed.


Lemma convert_roundtrip_inverse_witness :
  let M := mkNPortMatrix (1%:M : 'M[algC]_1) TYPE_Z None in
  (y <- convert M TYPE_Y None ;; convert y TYPE_Z None) = Ok M.
Proof.
move=> M.
have [rZ _] := @convert_roundtrip_inverse algC 1 1%:M (unitmx1 _ _).
exact: rZ.
Defined.

Lemma convert_roundtrip_scattering_witness :
  let M := mkNPortMatrix (0 : 'M[algC]_1) TYPE_S (Some 1) in
  (x <- convert M TYPE_Z None ;; convert x TYPE_S (Some 1)) = Ok M.
Proof.
move=> M.
have [rS _] := @convert_roundtrip_scattering algC 1 0 1 (oner_neq0 _).
by apply: rS; rewrite ?subr0 ?unitmx1.
Defined.

Lemma convert_supported_witness :
  (TYPE_Z \in [:: TYPE_Z; TYPE_Y; TYPE_S])
  && (TYPE_Y \in [:: TYPE_Z; TYPE_Y; TYPE_S]).
Proof.
have ok : is_ok (convert (mkNPortMatrix (1%:M : 'M[algC]_1) TYPE_Z None)
                         TYPE_Y None).
  by rewrite /convert /= /invert unitmx1.
exact: convert_supported ok.
Defined.

Lemma convert_tagged_witness :
  let M := mkNPortMatrix (0 : 'M[algC]_1) TYPE_Z None in
  [/\ pm_type M = TYPE_Z, isSome (pm_z0 M) = (TYPE_Z == TYPE_S)
    & forall z, None = Some z -> pm_z0 M = Some z].
Proof.
move=> M.
exact: (@convert_tagged algC 1 M TYPE_Z None M (erefl _)).
Defined.

Lemma renormalize_roundtrip_witness :
  let S0 := mkNPortMatrix (0 : 'M[algC]_1) TYPE_S (Some 1) in
  (s1 <- renormalize S0 2%:R ;; renormalize s1 1) = Ok S0.
Proof.
move=> S0.
apply: (@renormalize_roundtrip algC 1 S0 1 2%:R (erefl _) (erefl _)).
- exact: oner_neq0.
- by rewrite pnatr_eq0.
- by rewrite natr1 pnatr_eq0.
by rewrite scaler0 subr0 unitmx1.
Defined.

Lemma submatrix_entries_witness :
  let self := mkNPortMatrix (0 : 'M[algC]_2) TYPE_Z None in
  exists2 r, submatrix self [:: 2%:Z] = Ok r & pm_type r = TYPE_Z.
Proof.
move=> self.
have [ok _] := @submatrix_entries algC 2 0 TYPE_Z None self [:: 2%:Z]
                 (erefl _).
by have [r rE [tE _ _]] := ok (erefl _); exists r.
Defined.

Lemma ispassive_rows_witness :
  let S0 := mkNPortMatrix (0 : 'M[algC]_1) TYPE_S (Some 50%:R) in
  ispassive S0 = Ok [forall i, \sum_j `|pm_array S0 i j| ^+ 2 <= 1].
Proof.
move=> S0.
have [ok _] := @ispassive_rows algC 1 S0 (erefl _).
exact: ok.
Defined.

Lemma at_interpolates_witness :
  let ms := [:: (0 : 'M[algC]_1); 0] in
  let self := mkNPort [:: 1; 2%:R] ms TYPE_Z None in
  at_single self 1
  = Ok (mkNPortMatrix
          (nth 0 ms 0 + ratr ((1 - 1) / (2%:R - 1)) *: (nth 0 ms 1 - nth 0 ms 0))
          TYPE_Z None).
Proof.
move=> ms self.
exact: (@at_interpolates algC 1 [:: 1; 2%:R] ms TYPE_Z None self 0 1
          (erefl _) (erefl _) (erefl _) (erefl _)).
Defined.

Lemma at_samples_witness :
  let ms := [:: (0 : 'M[algC]_1); 0] in
  let self := mkNPort [:: 1; 2%:R] ms TYPE_Z None in
  at_ self [:: 1; 2%:R] = Ok self.
Proof.
move=> ms self.
by have [] := @at_samples algC 1 [:: 1; 2%:R] ms TYPE_Z None self
                (erefl _) (erefl _) (erefl _).
Defined.

Lemma at_out_of_range_witness :
  let ms := [:: (0 : 'M[algC]_1); 0] in
  let self := mkNPort [:: 1; 2%:R] ms TYPE_Z None in
  at_single self 0
  = Raise (ValueError "A value in x_new is below the interpolation range.").
Proof.
move=> ms self.
have [below _] := @at_out_of_range algC 1 [:: 1; 2%:R] ms TYPE_Z None self 0
                    (erefl _) (erefl _).
exact: below.
Defined.

Lemma add_commutes_witness :
  let ms := nseq 4 (0 : 'M[algC]_1) in
  let A := mkNPort [:: 1; 2%:R; 3%:R; 4%:R] ms TYPE_Z None in
  let B := mkNPort [:: 2%:R; 3%:R; 4%:R; 5%:R] ms TYPE_Z None in
  make_op op_add A (Sweep B) = make_op op_add B (Sweep A).
Proof.
move=> ms A B.
by have [] :=
  @add_commutes algC 1 [:: 1; 2%:R; 3%:R; 4%:R] ms [:: 2%:R; 3%:R; 4%:R; 5%:R]
                ms TYPE_Z None None A B (erefl _) (erefl _) (erefl _)
                (erefl _) (erefl _) (erefl _).
Defined.

Lemma scalar_roundtrip_witness :
  let A := mkNPort [:: 1] [:: (0 : 'M[algC]_1)] TYPE_Z None in
  (r <- make_op op_mul A (Scalar 1 (1 : algC)) ;;
   make_op op_div r (Scalar 1 (1 : algC))) = Ok A.
Proof.
move=> A.
have [_ mulK] := @scalar_roundtrip algC 1 [:: 1] [:: 0] TYPE_Z None A 1
                   (erefl _).
exact: mulK (oner_neq0 _).
Defined.

Lemma NPort_invert_involutive_witness :
  let A := mkNPort [:: 1] [:: (1%:M : 'M[algC]_1)] TYPE_Z None in
  (r <- NPort_invert A ;; NPort_invert r) = Ok A.
Proof.
move=> A.
have := @NPort_invert_involutive algC 1 [:: 1] [:: 1%:M] TYPE_Z None A
          (erefl _).
by rewrite /= unitmx1.
Defined.

Lemma average_interior_witness :
  let ms := [:: (0 : 'M[algC]_1); 0; 0] in
  let A := mkNPort [:: 1; 2%:R; 3%:R] ms TYPE_Z None in
  exists2 r, average A 3 = Ok r
  & nth 0 (np_array r) 1 = 3%:R^-1 *: \sum_(k < 3) nth 0 ms (1 - 3./2 + k).
Proof.
move=> ms A.
have [r rE [_ _ _ _ nE]] :=
  @average_interior algC 1 [:: 1; 2%:R; 3%:R] ms TYPE_Z None A 3 1
                    (erefl _) (erefl _) (erefl _) (erefl _).
by exists r.
Defined.

Lemma average_fixed_witness :
  let ms := [:: (0 : 'M[algC]_1); 0; 0] in
  let A := mkNPort [:: 1; 2%:R; 3%:R] ms TYPE_Z None in
  average A 1 = Ok A.
Proof.
move=> ms A.
exact: (@average_fixed algC 1 [:: 1; 2%:R; 3%:R] ms TYPE_Z None A 1
          (erefl _) (erefl _)).
Defined.

Lemma NPort_ispassive_scattering_witness :
  let ms := [:: (0 : 'M[algC]_1)] in
  let A := mkNPort [:: 1] ms TYPE_S (Some 50%:R) in
  NPort_ispassive A
  = Ok (all (fun m : 'M[algC]_1 => [forall i, \sum_j `|m i j| ^+ 2 <= 1]) ms).
Proof.
move=> ms A.
exact: (@NPort_ispassive_scattering algC 1 [:: 1] ms None A (erefl _)
          (erefl _)).
Defined.

Lemma NPort_renormalize_samples_witness :
  let A := mkNPort [:: 1] [:: (0 : 'M[algC]_1)] TYPE_S (Some 50%:R) in
  NPort_getitem A 0 = (m <- NPort_getitem A 0 ;; renormalize m 50%:R).
Proof.
move=> A.
have rE : NPort_renormalize A 50%:R = Ok A.
  by rewrite /NPort_renormalize /= eqxx.
by have [] := @NPort_renormalize_samples algC 1 [:: 1] [:: 0] None A 50%:R A
                0 (erefl _) rE (erefl _).
Defined.

Lemma NPort_recombine_scattering_witness :
  let A := mkNPort [:: 1] [:: (0 : 'M[algC]_1)] TYPE_S (Some 50%:R) in
  let R := mkNPort [:: 1] [:: (1%:M - 2%:R *: invmx (1%:M + 1%:M) : 'M[algC]_1)]
                   TYPE_S (Some 50%:R) in
  NPort_recombine A [:: PortInt 1] = Ok R
  /\ exists s : NPortMatrix algC 1,
       pm_z0 s = Some 50%:R /\ nth 0 (np_array R) 0 = pm_array s.
Proof.
move=> A R.
have m1 : np_matrix algC 1 1 [:: [:: 1]] = 1%:M.
  by apply/matrixP => i j; rewrite !mxE !ord1.
have u2 : (1%:M + 1%:M : 'M[algC]_1) \in unitmx.
  rewrite -mulr2n -(raddfMn (@scalar_mx algC 1)) unitmxE det_scalar expr1.
  by rewrite unitfE pnatr_eq0.
have n50 : (50%:R : algC) != 0 by rewrite pnatr_eq0.
have rE : NPort_recombine A [:: PortInt 1] = Ok R.
  rewrite /NPort_recombine /= /convert /= /idty subr0.
  rewrite (invert_unit (unitmx1 _ _)) /= /recombine /= m1.
  rewrite mul1mx trmx1 mulmx1 invmx1.
  have -> : 2%:R *: (1%:M : 'M[algC]_1) - 1%:M = 1%:M.
    by rewrite scaler_nat mulr2n addrK.
  by rewrite array_div_neq0 //= scalerA mulVf // scale1r (invert_unit u2).
split=> //.
have [zk [rc [s [_ _ _ [zs sE] _]]]] :=
  @NPort_recombine_scattering algC 1 [:: 1] [:: 0] None A [:: PortInt 1] R 0
    (erefl _) rE (erefl _).
by exists s.
Defined.

Lemma renormalize_via_impedance_witness :
  let S0 := mkNPortMatrix (0 : 'M[algC]_1) TYPE_S (Some 1) in
  (x <- convert S0 TYPE_Z None ;; convert x TYPE_S (Some 2%:R))
  = renormalize S0 2%:R.
Proof.
move=> S0.
apply: (@renormalize_via_impedance algC 1 S0 1 2%:R (erefl _) (erefl _)).
- by rewrite pnatr_eq0.
- by rewrite natr1 pnatr_eq0.
- by rewrite subr0 unitmx1.
by rewrite scaler0 subr0 unitmx1.
Defined.

Lemma average_empty_window_witness :
  let ms := [:: (0 : 'M[algC]_1); 0] in
  let A := mkNPort [:: 1; 2%:R] ms TYPE_Z None in
  average A 0 = Ok (mkNPort [:: 1; 2%:R] (nseq 2 0) TYPE_Z None).
Proof.
move=> ms A.
exact: (@average_empty_window algC 1 [:: 1; 2%:R] ms TYPE_Z None A (erefl _)).
Defined.
